(** * hardhat-zksync: the missing-library registry writer and the
      balance-change computation

    Two fragments of the plugin are embedded here:

    - [Registry]: [getOrCreateLibraries] and [writeLibrariesToFile]
      (src/packages/hardhat-zksync-ethers/src/constants.ts, lines 187-212),
      run against a model of the file system (fs-extra) and of the advisory
      lock (proper-lockfile);
    - [Balance]: [getBalanceChanges] and [getTxFees]
      (src/unnamed/part_000, lines 79-120), run against a ledger reader and
      a transaction receipt.

    Both are asynchronous functions whose awaits are sequential; a rejected
    promise is an [Err] result, a resolved one an [Ok] result. *)

From Stdlib Require Import ZArith Ascii String.
From stdpp Require Import gmap strings list fin_maps pretty.

Local Set Warnings "-register-all".

(** The outcome of an awaited call: resolved with a value, or rejected. *)
Inductive result (E A : Type) : Type :=
| Ok (a : A)
| Err (e : E).
Arguments Ok {E A} a.
Arguments Err {E A} e.

Definition is_ok {E A} (r : result E A) : bool :=
  match r with Ok _ => true | Err _ => false end.

Module Registry.

(** ** Data *)

(** JSON values, as [fse.readJSON] returns them and [JSON.stringify]
    prints them. *)
Inductive json : Type :=
| JNull
| JBool (b : bool)
| JNum (n : Z)
| JStr (s : string)
| JArr (xs : list json)
| JObj (fields : list (string * json)).

(** The [MissingLibrary] records the callers hand over ([libraries: any[]]
    in the signature), as JSON objects. *)
Record MissingLibrary : Type := mkMissingLibrary {
  contractName : string;
  contractPath : string;
  missingLibraries : list string
}.

Definition json_of_library (l : MissingLibrary) : json :=
  JObj [("contractName", JStr (contractName l));
        ("contractPath", JStr (contractPath l));
        ("missingLibraries", JArr (JStr <$> missingLibraries l))].

(** A file's text, up to JSON equivalence: either text that [JSON.parse]
    accepts, identified with the value it denotes (white space is not
    modelled), or text that [JSON.parse] rejects. *)
Inductive FileContent : Type :=
| JsonText (v : json)
| RawText (s : string).

Inductive ErrCode : Type := ENOENT | EACCES | ELOCKED | ENOTACQUIRED.

(** What can be thrown: the two language errors of the merge step, the
    coded errors of the file system and of the lock, and the plugin's own
    error, whose message interpolates the error it was built from
    ([`Failed to write missing libraries file: ${e}`]). *)
Inductive Error : Type :=
| SyntaxError
| TypeError
| SystemError (code : ErrCode)
| ZkSyncSolcPluginError (cause : Error).

(** Who holds the lock of a path: this process, or another one that keeps
    it for the next [busy] acquisition attempts. *)
Inductive Holder : Type :=
| Self
| Other (busy : nat).

(** The calls made on the file system and on the lock, in order. *)
Inductive Event : Type :=
| EvPathExists (p : string)
| EvOutputFile (p : string) (c : FileContent)
| EvOutputFileSync (p : string) (c : FileContent)
| EvReadJSON (p : string)
| EvMove (src dst : string)
| EvLock (p : string)
| EvUnlock (p : string).

Record World : Type := mkWorld {
  files : gmap string FileContent;
  readonly : gset string;
  locks : gmap string Holder;
  trace : list Event
}.

Definition log (e : Event) (w : World) : World :=
  mkWorld (files w) (readonly w) (locks w) (trace w ++ [e]).

Definition set_files (f : gmap string FileContent) (w : World) : World :=
  mkWorld f (readonly w) (locks w) (trace w).

Definition set_locks (l : gmap string Holder) (w : World) : World :=
  mkWorld (files w) (readonly w) l (trace w).

(** The events a run added to the trace. *)
Definition new_events (w w' : World) : list Event :=
  drop (length (trace w)) (trace w').

(** ** The monad of asynchronous calls *)

Definition M (A : Type) : Type := World → result Error A * World.

#[export] Instance M_ret : MRet M := λ A a w, (Ok a, w).

#[export] Instance M_bind : MBind M := λ A B f m w,
  match m w with
  | (Ok a, w') => f a w'
  | (Err e, w') => (Err e, w')
  end.

Definition throw {A} (e : Error) : M A := λ w, (Err e, w).

Definition lift {A} (r : result Error A) : M A := λ w, (r, w).

(** [try { body } catch (e) { handler e } finally { fin }]: the handler runs
    when the body throws; [fin] runs in every case, and when [fin] itself
    throws, its error is the statement's outcome. *)
Definition try_catch_finally {A} (body : M A) (handler : Error → M A)
    (fin : M unit) : M A := λ w,
  let '(r1, w1) :=
    match body w with
    | (Ok a, w') => (Ok a, w')
    | (Err e, w') => handler e w'
    end in
  match fin w1 with
  | (Ok _, w2) => (r1, w2)
  | (Err e, w2) => (Err e, w2)
  end.

(** ** fs-extra *)

Definition pathExists (p : string) : M bool := λ w,
  (Ok (match files w !! p with Some _ => true | None => false end),
   log (EvPathExists p) w).

Definition write_file (ev : Event) (p : string) (c : FileContent) : M unit :=
  λ w,
  let w1 := log ev w in
  if decide (p ∈ readonly w1) then (Err (SystemError EACCES), w1)
  else (Ok tt, set_files (<[p:=c]> (files w1)) w1).

Definition outputFile (p : string) (c : FileContent) : M unit :=
  write_file (EvOutputFile p c) p c.

Definition outputFileSync (p : string) (c : FileContent) : M unit :=
  write_file (EvOutputFileSync p c) p c.

Definition JSON_parse (c : FileContent) : result Error json :=
  match c with
  | JsonText v => Ok v
  | RawText _ => Err SyntaxError
  end.

Definition JSON_stringify (v : json) : FileContent := JsonText v.

Definition readJSON (p : string) : M json := λ w,
  let w1 := log (EvReadJSON p) w in
  match files w1 !! p with
  | None => (Err (SystemError ENOENT), w1)
  | Some c => (JSON_parse c, w1)
  end.

(** [fse.move(src, dst, { overwrite: true })], the rename the file's
    [download] helper uses (line 255). *)
Definition move (src dst : string) : M unit := λ w,
  let w1 := log (EvMove src dst) w in
  match files w1 !! src with
  | None => (Err (SystemError ENOENT), w1)
  | Some c =>
      if decide (dst ∈ readonly w1) then (Err (SystemError EACCES), w1)
      else (Ok tt, set_files (<[dst:=c]> (delete src (files w1))) w1)
  end.

(** ** proper-lockfile *)

(** [lockfile.lock(p, { retries: { retries, maxTimeout } })]: the path must
    exist; the acquisition is tried once and retried [retries] times. A lock
    this process holds already stays held throughout; another process gives
    it up after [busy] attempts. *)
Definition lock (p : string) (retries : nat) : M unit := λ w,
  let w1 := log (EvLock p) w in
  match files w1 !! p with
  | None => (Err (SystemError ENOENT), w1)
  | Some _ =>
      match locks w1 !! p with
      | None => (Ok tt, set_locks (<[p:=Self]> (locks w1)) w1)
      | Some Self => (Err (SystemError ELOCKED), w1)
      | Some (Other busy) =>
          if decide (busy ≤ retries)%nat
          then (Ok tt, set_locks (<[p:=Self]> (locks w1)) w1)
          else (Err (SystemError ELOCKED),
                set_locks (<[p:=Other (busy - S retries)%nat]> (locks w1)) w1)
      end
  end.

(** [lockfile.unlock(p)]: resolves the path, then refuses a lock this
    process does not hold. *)
Definition unlock (p : string) : M unit := λ w,
  let w1 := log (EvUnlock p) w in
  match files w1 !! p with
  | None => (Err (SystemError ENOENT), w1)
  | Some _ =>
      match locks w1 !! p with
      | Some Self => (Ok tt, set_locks (delete p (locks w1)) w1)
      | _ => (Err (SystemError ENOTACQUIRED), w1)
      end
  end.

(** ** The registry writer *)

(** The characters a string iterates over. Strings are UTF-8 text: a
    character is a byte that is not a continuation byte (10xxxxxx) together
    with the continuation bytes that follow it. *)
Definition is_continuation (c : ascii) : bool :=
  let n := N_of_ascii c in ((128 <=? n) && (n <? 192))%N.

Definition starts_with_continuation (s : string) : bool :=
  match s with
  | String c _ => is_continuation c
  | EmptyString => false
  end.

Fixpoint code_points (s : string) : list string :=
  match s with
  | EmptyString => []
  | String c s' =>
      match code_points s' with
      | following :: rest =>
          if starts_with_continuation s' then String c following :: rest
          else String c EmptyString :: following :: rest
      | [] => [String c EmptyString]
      end
  end.

(** The array spread [[...v]] of a value read from JSON: arrays and strings
    are iterable, nothing else is; a string yields its characters, one
    string each. *)
Definition spread (v : json) : result Error (list json) :=
  match v with
  | JArr xs => Ok xs
  | JStr s => Ok (JStr <$> code_points s)
  | _ => Err TypeError
  end.

(** constants.ts, lines 188-196. *)
Definition getOrCreateLibraries (filePath : string) : M json :=
  found ← pathExists filePath;
  (if negb found then outputFile filePath (JsonText (JArr [])) else mret tt);;
  readJSON filePath.

(** Lines 204-206: what runs once the lock is taken. *)
Definition mergeAndWrite (filePath : string) (libraries : list json) : M unit :=
  existingLibraries ← getOrCreateLibraries filePath;
  existing ← lift (spread existingLibraries);
  let combinedLibraries := existing ++ libraries in
  outputFileSync filePath (JSON_stringify (JArr combinedLibraries)).

(** Lines 201-206: the body of the [try]. *)
Definition writeBody (filePath : string) (libraries : list json) : M unit :=
  _ ← getOrCreateLibraries filePath;
  lock filePath 10;;
  mergeAndWrite filePath libraries.

(** constants.ts, lines 199-212. *)
Definition writeLibrariesToFile (filePath : string) (libraries : list json)
    : M unit :=
  try_catch_finally
    (writeBody filePath libraries)
    (λ e, throw (ZkSyncSolcPluginError e))
    (unlock filePath).

(** The lock of a path can be taken within the retry budget. *)
Definition free_within (retries : nat) (h : option Holder) : bool :=
  match h with
  | None => true
  | Some Self => false
  | Some (Other busy) => bool_decide (busy ≤ retries)%nat
  end.

(** Values the spread accepts. *)
Definition iterable (v : json) : bool :=
  match v with
  | JArr _ | JStr _ => true
  | _ => false
  end.

(** [emits P m]: whatever the world, [m] only adds events that satisfy [P]. *)
Definition emits (P : Event → Prop) {A} (m : M A) : Prop :=
  ∀ w, ∃ evs, trace (m w).2 = trace w ++ evs ∧ Forall P evs.


Definition is_unlock (e : Event) : Prop :=
  match e with EvUnlock _ => True | _ => False end.


(** ** Vocabulary of the statements *)

(** File contents the merge cannot take: text that does not parse, and
    JSON values that cannot be spread. *)
Definition not_mergeable (c : FileContent) : bool :=
  match c with
  | RawText _ => true
  | JsonText v => negb (iterable v)
  end.


(** A parse failure raised by a read made after the lock was taken. *)
Definition rejected_under_lock (p : string) (r : result Error unit)
    (evs : list Event) : Prop :=
  (r = Err SyntaxError ∨ r = Err (ZkSyncSolcPluginError SyntaxError))
  ∧ ∃ pre post, evs = pre ++ EvLock p :: post ∧ EvReadJSON p ∈ post.

(** The [try] body fails with [e] before the lock is this process's: in the
    first read, or in the acquisition. *)
Definition fails_before_lock (p : string) (w : World) (e : Error) : Prop :=
  (∃ w1, getOrCreateLibraries p w = (Err e, w1))
  ∨ (∃ v w1 w2, getOrCreateLibraries p w = (Ok v, w1)
                ∧ lock p 10 w1 = (Err e, w2)).

(** The file at [p] holds the record sequence [E]; a path with no file yet
    holds the empty sequence. *)
Definition holds (w : World) (p : string) (E : list json) : Prop :=
  files w !! p = Some (JsonText (JArr E)) ∨ (files w !! p = None ∧ E = []).

(** ** Sample records and worlds *)

Definition lib_A : json :=
  json_of_library (mkMissingLibrary "A" "contracts/A.sol" ["contracts/L.sol:L"]).

Definition lib_B : json :=
  json_of_library (mkMissingLibrary "B" "contracts/B.sol" ["contracts/L.sol:L"]).

Definition registry_path : string := "cache/missingLibraries.json".

(** Nothing on disk, nothing locked. *)
Definition empty_world : World := mkWorld ∅ ∅ ∅ [].

(** The registry file holds text that is not JSON. *)
Definition corrupt_world : World :=
  mkWorld {[ registry_path := RawText "[{" ]} ∅ ∅ [].

(** The registry file holds a JSON object instead of an array. *)
Definition object_world : World :=
  mkWorld {[ registry_path := JsonText (JObj []) ]} ∅ ∅ [].

(** Another process keeps the lock for longer than the retries last. *)
Definition contended_world : World :=
  mkWorld {[ registry_path := JsonText (JArr []) ]} ∅
    {[ registry_path := Other 100 ]} [].

(** Everything that is not about the path [p] is as it was: the read-only
    paths, the other files and the other locks. *)
Definition same_elsewhere (p : string) (w w' : World) : Prop :=
  readonly w' = readonly w
  ∧ ∀ q, q ≠ p → files w' !! q = files w !! q ∧ locks w' !! q = locks w !! q.

(** [m] never leaves the relation [R] between the world it starts in and
    the one it ends in. *)
Definition keeps (R : World → World → Prop) {A} (m : M A) : Prop :=
  ∀ w, R w (m w).2.

(** Calls made one after the other, each on the world the previous one
    left, whatever the previous one returned. *)
Fixpoint writeAll (filePath : string) (batches : list (list json))
    (w : World) : list (result Error unit) * World :=
  match batches with
  | [] => ([], w)
  | libraries :: rest =>
      let '(r, w1) := writeLibrariesToFile filePath libraries w in
      let '(rs, w2) := writeAll filePath rest w1 in
      (r :: rs, w2)
  end.

(** This process already holds the lock of the registry file. *)
Definition held_world : World :=
  mkWorld {[ registry_path := JsonText (JArr [lib_A]) ]} ∅
    {[ registry_path := Self ]} [].

(** The registry file exists and cannot be written. *)
Definition readonly_world : World :=
  mkWorld {[ registry_path := JsonText (JArr [lib_A]) ]} {[ registry_path ]}
    ∅ [].

(** The registry file holds a JSON string. *)
Definition string_world : World :=
  mkWorld {[ registry_path := JsonText (JStr "aé") ]} ∅ ∅ [].

End Registry.

Module Balance.

(** ** Data *)

(** What can reject a promise here: a failure of the provider (receipt,
    ledger or address lookup), [toBigInt] on a value that is not an integer,
    and arithmetic between a bigint and [undefined]. *)
Inductive Error : Type :=
| ProviderError (msg : string)
| InvalidArgument
| TypeError.

#[export] Instance result_ret : MRet (result Error) := λ A a, Ok a.

#[export] Instance result_bind : MBind (result Error) := λ A B f r,
  match r with
  | Ok a => f a
  | Err e => Err e
  end.

(** ethers' [BigNumberish]: a bigint, a number or a string. Numbers are
    the integral ones; [toBigInt] rejects the others. *)
Inductive BigNumberish : Type :=
| BNbigint (n : Z)
| BNnumber (n : Z)
| BNstring (s : string).

(** The test [v ? _ : _] on such a value: [0n], [0] and the empty string
    are false. *)
Definition truthy (v : BigNumberish) : bool :=
  match v with
  | BNbigint n | BNnumber n => negb (n =? 0)%Z
  | BNstring s => negb (String.eqb s EmptyString)
  end.

(** [ethers.Overrides], the field that is read. *)
Record Overrides : Type := mkOverrides {
  maxFeePerGas : option BigNumberish
}.

(** [BalanceChangeOptions] of misc/balance. *)
Record BalanceChangeOptions : Type := mkOptions {
  includeFee : option bool
}.

Record TransactionReceipt : Type := mkReceipt {
  blockNumber : Z;
  gasUsed : Z;
  receiptGasPrice : option Z
}.

Record TransactionResponse : Type := mkResponse {
  from : string;
  gasPrice : Z;
  wait : result Error TransactionReceipt
}.

(** The collaborators the two functions call but do not define: the account
    type with its address lookup (misc/account), the ledger reader behind
    [getBalances], and the string case of ethers' [toBigInt]. *)
Class Chain : Type := mkChain {
  Account : Type;
  getAddressOf : Account → result Error string;
  getBalance : string → Z → result Error Z;
  BigInt_of_string : string → option Z
}.

Section WithChain.
Context `{Chain}.

Definition MAX_SAFE_INTEGER : Z := 2 ^ 53 - 1.

(** ethers' [toBigInt]. *)
Definition toBigInt (v : BigNumberish) : result Error Z :=
  match v with
  | BNbigint n => Ok n
  | BNnumber n =>
      if ((- MAX_SAFE_INTEGER <=? n) && (n <=? MAX_SAFE_INTEGER))%Z
      then Ok n else Err InvalidArgument
  | BNstring s =>
      match BigInt_of_string s with
      | Some n => Ok n
      | None => Err InvalidArgument
      end
  end.

(** Modelled from the spec: [getBalances] of misc/balance is imported by
    the source but is not part of it. The description has it sample, for
    each account in order, the balance of the account's address at the
    given height through the ledger reader [getBalance(address, height)];
    a failed read fails the whole call. *)
Definition getBalances (accounts : list Account) (blockNumber : Z)
    : result Error (list Z) :=
  mapM (λ account,
          address ← getAddressOf account;
          getBalance address blockNumber) accounts.

(** [options?.includeFee !== true] is false. *)
Definition includeFee_true (options : option BalanceChangeOptions) : bool :=
  match options ≫= includeFee with
  | Some true => true
  | _ => false
  end.

(** part_000, lines 108-110:
    [overrides?.maxFeePerGas ? overrides?.maxFeePerGas
                             : txReceipt.gasPrice ?? txResponse.gasPrice]. *)
Definition selectGasPrice (overrides : option Overrides)
    (txReceipt : TransactionReceipt) (txResponse : TransactionResponse)
    : BigNumberish :=
  let declared :=
    BNbigint (default (gasPrice txResponse) (receiptGasPrice txReceipt)) in
  match overrides ≫= maxFeePerGas with
  | Some m => if truthy m then m else declared
  | None => declared
  end.

(** part_000, lines 105-118: the callback mapped over the accounts. *)
Definition txFeeOf (txResponse : TransactionResponse)
    (options : option BalanceChangeOptions) (overrides : option Overrides)
    (account : Account) : result Error Z :=
  if negb (includeFee_true options) then
    address ← getAddressOf account;
    if String.eqb address (from txResponse) then
      txReceipt ← wait txResponse;
      let gasPrice := selectGasPrice overrides txReceipt txResponse in
      let gasUsed := gasUsed txReceipt in
      price ← toBigInt gasPrice;
      let txFee := (price * gasUsed)%Z in
      mret txFee
    else mret 0%Z
  else mret 0%Z.

(** part_000, lines 98-120. [Promise.all] over pure reads: all the values
    in order, or a rejection. *)
Definition getTxFees (accounts : list Account)
    (txResponse : TransactionResponse)
    (options : option BalanceChangeOptions) (overrides : option Overrides)
    : result Error (list Z) :=
  mapM (txFeeOf txResponse options overrides) accounts.

(** Line 95, the callback of the last [map]:
    [balance + txFees[ind] - balancesBefore[ind]]; an index outside one of
    the arrays reads [undefined], which bigint arithmetic rejects. *)
Definition changeAt (txFees balancesBefore : list Z) (ind : nat)
    (balance : Z) : result Error Z :=
  match txFees !! ind, balancesBefore !! ind with
  | Some fee, Some before => Ok (balance + fee - before)%Z
  | _, _ => Err TypeError
  end.

(** part_000, lines 79-96. *)
Definition getBalanceChanges (transaction : result Error TransactionResponse)
    (accounts : list Account) (options : option BalanceChangeOptions)
    (overrides : option Overrides) : result Error (list Z) :=
  txResponse ← transaction;
  txReceipt ← wait txResponse;
  let txBlockNumber := blockNumber txReceipt in
  balancesAfter ← getBalances accounts txBlockNumber;
  balancesBefore ← getBalances accounts (txBlockNumber - 1)%Z;
  txFees ← getTxFees accounts txResponse options overrides;
  mapM (λ '(ind, balance), changeAt txFees balancesBefore ind balance)
    (imap pair balancesAfter).
End WithChain.

(** ** Vocabulary of the statements *)

(** The price rule of the description: a supplied [maxFeePerGas] is the
    price, whatever its value. *)
Definition override_always_used `{Chain} (overrides : option Overrides)
    (txReceipt : TransactionReceipt) (txResponse : TransactionResponse)
    : Prop :=
  ∀ m, overrides ≫= maxFeePerGas = Some m →
       selectGasPrice overrides txReceipt txResponse = m.

(** ** A sample chain: a sender paying a fee of 20, and a recipient *)

Definition sender : string := "0x36615Cf349d7F6344891B1e7CA7C72883F5dc049".
Definition recipient : string := "0xa61464658AfeAf65CccaaFD3a512b69A83B77618".

(** Before the transaction (height 7) the sender owns 1000 and the recipient
    500; after it (height 8), 950 and 570. *)
Definition sample_ledger (address : string) (height : Z) : result Error Z :=
  if String.eqb address sender then
    if (height =? 8)%Z then Ok 950%Z
    else if (height =? 7)%Z then Ok 1000%Z
    else Err (ProviderError "pruned")
  else if String.eqb address recipient then
    if (height =? 8)%Z then Ok 570%Z
    else if (height =? 7)%Z then Ok 500%Z
    else Err (ProviderError "pruned")
  else Ok 0%Z.

Definition sample_chain : Chain :=
  mkChain string (λ a, Ok a) sample_ledger (λ _, None).

Definition sample_receipt : TransactionReceipt := mkReceipt 8 4 (Some 5%Z).

Definition sample_tx : TransactionResponse :=
  mkResponse sender 5 (Ok sample_receipt).

Definition zero_override : option Overrides :=
  Some (mkOverrides (Some (BNbigint 0))).

End Balance.

Module Utils.

(** The remaining helpers of constants.ts: version parsing and the filter of
    output selections (lines 27-79, 130-133), [zeroxlify] (81-84), the scan
    for missing libraries (148-185) and [getLatestRelease] (267-306).
    Strings are sequences of UTF-8 bytes. *)

Inductive Error : Type :=
| TypeError
| RequestError (msg : string)
| ZkSyncSolcPluginError (message : string).

#[export] Instance result_ret : MRet (result Error) := λ A a, Ok a.

#[export] Instance result_bind : MBind (result Error) := λ A B f r,
  match r with
  | Ok a => f a
  | Err e => Err e
  end.

(** ** Strings and numbers of the language *)

(** A number that is an integer, or NaN ([None]). The numbers below come
    out of [parseInt] and are only compared with small constants. The
    language keeps a number as a double, which holds every integer below
    [2 ^ 53] exactly and rounds beyond it; the integer here is not rounded,
    so it is the number of the language up to [2 ^ 53], and beyond it
    stands for a double that is not below [2 ^ 53] either. *)
Definition number : Type := option Z.

(** [a <= k], [a < k] and [a === k]: false on NaN. *)
Definition num_le (a : number) (k : Z) : bool :=
  match a with Some x => (x <=? k)%Z | None => false end.

Definition num_lt (a : number) (k : Z) : bool :=
  match a with Some x => (x <? k)%Z | None => false end.

Definition num_eq (a : number) (k : Z) : bool :=
  match a with Some x => (x =? k)%Z | None => false end.

(** [s.split(sep)] for a separator of one character: never empty. *)
Fixpoint split (sep : ascii) (s : string) : list string :=
  match s with
  | EmptyString => [EmptyString]
  | String c s' =>
      if Ascii.eqb c sep then EmptyString :: split sep s'
      else match split sep s' with
           | part :: parts => String c part :: parts
           | [] => [String c EmptyString]
           end
  end.

Definition digit_of (c : ascii) : option Z :=
  let n := N_of_ascii c in
  if ((48 <=? n) && (n <=? 57))%N then Some (Z.of_N n - 48)%Z else None.

Definition byte_is (c : ascii) (n : N) : bool := (N_of_ascii c =? n)%N.

(** White space and line terminators of one, two and three bytes: TAB, LF,
    VT, FF, CR, SP; U+00A0; U+1680, U+2000-200A, U+2028, U+2029, U+202F,
    U+205F, U+3000, U+FEFF. *)
Definition ws1 (a : ascii) : bool :=
  let n := N_of_ascii a in (((9 <=? n) && (n <=? 13)) || (n =? 32))%N.

Definition ws2 (a b : ascii) : bool := byte_is a 194 && byte_is b 160.

Definition ws3 (a b c : ascii) : bool :=
  let n := N_of_ascii c in
  (byte_is a 225 && byte_is b 154 && byte_is c 128)
  || (byte_is a 226 && byte_is b 128
      && (((128 <=? n) && (n <=? 138)) || (n =? 168) || (n =? 169)
          || (n =? 175))%N)
  || (byte_is a 226 && byte_is b 129 && byte_is c 159)
  || (byte_is a 227 && byte_is b 128 && byte_is c 128)
  || (byte_is a 239 && byte_is b 187 && byte_is c 191).

Fixpoint trimStart (s : string) : string :=
  match s with
  | EmptyString => s
  | String a s1 =>
      if ws1 a then trimStart s1
      else match s1 with
           | EmptyString => s
           | String b s2 =>
               if ws2 a b then trimStart s2
               else match s2 with
                    | EmptyString => s
                    | String c s3 => if ws3 a b c then trimStart s3 else s
                    end
           end
  end.

(** The value of the longest prefix of decimal digits. *)
Fixpoint digits_value (acc : Z) (s : string) : Z :=
  match s with
  | EmptyString => acc
  | String c s' =>
      match digit_of c with
      | Some d => digits_value (10 * acc + d) s'
      | None => acc
      end
  end.

(** [parseInt(s, 10)]: leading white space and one sign are skipped, the
    digits that follow are read, and the rest is ignored; NaN when no digit
    follows. The value is exact, see [number]: it is what the language
    returns for a numeral below [2 ^ 53]. *)
Definition parseInt (s : string) : number :=
  let s := trimStart s in
  let '(sign, s) :=
    match s with
    | String c s' =>
        if byte_is c 45 then ((-1)%Z, s')
        else if byte_is c 43 then (1%Z, s')
        else (1%Z, s)
    | EmptyString => (1%Z, s)
    end in
  match s with
  | String c _ =>
      match digit_of c with
      | Some _ => Some (sign * digits_value 0 s)%Z
      | None => None
      end
  | EmptyString => None
  end.

(** [parseInt(parts[i], 10)]: an index outside the array reads [undefined],
    which is parsed as the text "undefined". *)
Definition parseInt_at (parts : list string) (i : nat) : number :=
  parseInt (default "undefined" (parts !! i)).

(** constants.ts, lines 130-133; the three-element array as a triple. *)
Definition getVersionComponents (version : string) : number * number * number :=
  let versionComponents := split "."%char version in
  (parseInt_at versionComponents 0, parseInt_at versionComponents 1,
   parseInt_at versionComponents 2).

(** [String.prototype.toLowerCase] on ASCII letters. Characters outside
    ASCII are left alone here, which is not what the language does with
    them: the statements about [zeroxlify] are for ASCII strings. *)
Definition lower_ascii (c : ascii) : ascii :=
  let n := N_of_ascii c in
  if ((65 <=? n) && (n <=? 90))%N then ascii_of_N (n + 32) else c.

Fixpoint toLowerCase (s : string) : string :=
  match s with
  | EmptyString => EmptyString
  | String c s' => String (lower_ascii c) (toLowerCase s')
  end.

Fixpoint is_ascii (s : string) : bool :=
  match s with
  | EmptyString => true
  | String c s' => (N_of_ascii c <? 128)%N && is_ascii s'
  end.

(** constants.ts, lines 81-84. *)
Definition zeroxlify (hex : string) : string :=
  let hex := toLowerCase hex in
  if String.eqb (substring 0 2 hex) "0x" then hex else "0x" +:+ hex.

(** [s.substring(n)]. *)
Fixpoint substring_from (n : nat) (s : string) : string :=
  match n, s with
  | O, _ => s
  | S n', String _ s' => substring_from n' s'
  | S _, EmptyString => EmptyString
  end.

(** ** Output selections *)

(** [CompilerOutputSelection]: file, then contract, then the outputs asked
    for. *)
Abbreviation CompilerOutputSelection := (gmap string (gmap string (list string))).

Section Selections.
(** [ZKSOLC_COMPILERS_SELECTOR_MAP['1.3.5']], a constant that is not among
    the sources. *)
Variable SELECTOR_MAP_1_3_5 : list string.

(** Lines 33-42: the [switch (true)]. *)
Definition supportedOutputSelections (zkCompilerVersion : string)
    : list string :=
  let '(v0, v1, v2) := getVersionComponents zkCompilerVersion in
  if num_le v0 1 && num_le v1 3 && num_le v2 5
  then SELECTOR_MAP_1_3_5
  else SELECTOR_MAP_1_3_5 ++ ["metadata"; "userdoc"; "devdoc"].

(** The outputs of a list that are supported for a version, in the order
    of the list. *)
Definition kept_outputs (zkCompilerVersion : string) (outputs : list string)
    : list string :=
  filter (λ output, output ∈ supportedOutputSelections zkCompilerVersion)
    outputs.

(** constants.ts, lines 27-55. The two loops over [Object.entries] are folds
    over the entries; [filteredOutputSelection[file][contract] = _] updates
    the object stored under [file], which the outer loop has just set. *)
Definition filterSupportedOutputSelections
    (outputSelection : CompilerOutputSelection) (zkCompilerVersion : string)
    : CompilerOutputSelection :=
  let supported := supportedOutputSelections zkCompilerVersion in
  map_fold
    (λ file contractSelection filteredOutputSelection,
       map_fold
         (λ contract outputs filteredOutputSelection,
            alter (insert contract (filter (λ output, output ∈ supported) outputs))
              file filteredOutputSelection)
         (<[file:=∅]> filteredOutputSelection)
         contractSelection)
    ∅ outputSelection.

(** ** [updateCompilerConf] *)

Section Conf.
(** The values of settings the function only copies. *)
Context {Value : Type}.

(** [compiler.settings], an untyped object: the three keys the function
    touches, and the others. *)
Record SolcSettings : Type := mkSolcSettings {
  optimizer : option (gmap string Value);
  metadata : option (gmap string Value);
  outputSelection : option CompilerOutputSelection;
  others : gmap string Value
}.

Record SolcConfig : Type := mkSolcConfig {
  version : string;
  settings : option SolcSettings
}.

Record ZkSolcSettings : Type := mkZkSolcSettings {
  zk_optimizer : option (gmap string Value);
  zk_metadata : option (gmap string Value);
  forceEvmla : bool
}.

Record ZkSolcConfig : Type := mkZkSolcConfig {
  zk_version : string;
  zk_settings : ZkSolcSettings
}.

(** What a call leaves behind: the lines written by [console.warn], the
    compiler configuration as mutated, and how the call ended. *)
Record ConfOutcome : Type := mkConfOutcome {
  warnings : list string;
  compiler_after : SolcConfig;
  outcome : result Error unit
}.

(** constants.ts, lines 57-79. [Object.entries] of an absent
    [outputSelection] throws, after the other settings were replaced. *)
Definition updateCompilerConf (compiler : SolcConfig) (zksolc : ZkSolcConfig)
    : ConfOutcome :=
  let '(major, minor, _) := getVersionComponents (version compiler) in
  let warned :=
    if num_eq major 0 && num_lt minor 8 && forceEvmla (zk_settings zksolc)
    then ["zksolc solidity compiler versions < 0.8 work with forceEvmla enabled by default"]
    else [] in
  let settings := default (mkSolcSettings None None None ∅) (settings compiler) in
  (* { ...settings, optimizer: { ...zksolc.settings.optimizer } } *)
  let settings1 :=
    mkSolcSettings (Some (default ∅ (zk_optimizer (zk_settings zksolc))))
      (metadata settings) (outputSelection settings) (others settings) in
  (* delete compiler.settings.metadata *)
  let settings2 :=
    mkSolcSettings (optimizer settings1) None (outputSelection settings1)
      (others settings1) in
  (* if (zksolc.settings.metadata) ... = { ...zksolc.settings.metadata } *)
  let settings3 :=
    match zk_metadata (zk_settings zksolc) with
    | Some m =>
        mkSolcSettings (optimizer settings2) (Some m) (outputSelection settings2)
          (others settings2)
    | None => settings2
    end in
  match outputSelection settings3 with
  | None =>
      mkConfOutcome warned (mkSolcConfig (version compiler) (Some settings3))
        (Err TypeError)
  | Some selection =>
      let settings4 :=
        mkSolcSettings (optimizer settings3) (metadata settings3)
          (Some (filterSupportedOutputSelections selection (zk_version zksolc)))
          (others settings3) in
      mkConfOutcome warned (mkSolcConfig (version compiler) (Some settings4))
        (Ok tt)
  end.
End Conf.
End Selections.

(** ** Missing libraries *)

(** An object whose keys are enumerated in order: the entries, with
    distinct keys. [obj[key]] is the first entry under the key. *)
Fixpoint entries_lookup {A} (key : string) (obj : list (string * A))
    : option A :=
  match obj with
  | [] => None
  | (k, v) :: rest =>
      if String.eqb k key then Some v else entries_lookup key rest
  end.

(** The part of a compiled contract that is read here. *)
Record Contract : Type := mkContract {
  contract_missingLibraries : option (list string)
}.

(** The compiler output: [contracts] maps a file to its contracts by name;
    it may be absent. *)
Record ZkSolcOutput : Type := mkZkSolcOutput {
  contracts : option (list (string * list (string * Contract)))
}.

(** [Set.prototype.add] on a set kept in insertion order. *)
Definition set_add (x : string) (s : list string) : list string :=
  if decide (x ∈ s) then s else s ++ [x].

(** constants.ts, lines 148-165. The keys [for ... in] visits are strings;
    the empty one is skipped. Iterating an absent [contracts] visits
    nothing. *)
Definition findMissingLibraries (zkSolcOutput : ZkSolcOutput) : list string :=
  foldl
    (λ missingLibraries '(filePath, fileContracts),
       if String.eqb filePath EmptyString then missingLibraries
       else
         foldl
           (λ missingLibraries '(contractName, contract),
              if String.eqb contractName EmptyString then missingLibraries
              else
                match contract_missingLibraries contract with
                | Some libraries =>
                    if (0 <? length libraries)%nat
                    then foldl (λ set library, set_add library set)
                           missingLibraries libraries
                    else missingLibraries
                | None => missingLibraries
                end)
           missingLibraries fileContracts)
    [] (default [] (contracts zkSolcOutput)).

(** The entries of the dependency array; [contractName] is [undefined] when
    the library identifier has no colon. *)
Record Dependency : Type := mkDependency {
  dep_contractName : option string;
  dep_contractPath : string;
  dep_missingLibraries : list string
}.

(** Lines 170-182: the callback of [forEach], which pushes at most one
    entry. Reading [zkSolcOutput.contracts[libFilePath]] throws when
    [contracts] is absent; a key that is [undefined] is the key
    "undefined". *)
Definition dependencyOf (zkSolcOutput : ZkSolcOutput) (library : string)
    : result Error (list Dependency) :=
  let parts := split ":"%char library in
  let libFilePath := default EmptyString (parts !! 0%nat) in
  let libContractName := parts !! 1%nat in
  match contracts zkSolcOutput with
  | None => Err TypeError
  | Some allContracts =>
      match entries_lookup libFilePath allContracts with
      | Some fileContracts =>
          match entries_lookup (default "undefined" libContractName)
                  fileContracts with
          | Some contract =>
              match contract_missingLibraries contract with
              | Some libraries =>
                  Ok [mkDependency libContractName libFilePath libraries]
              | None => Ok []
              end
          | None => Ok []
          end
      | None => Ok []
      end
  end.

(** constants.ts, lines 167-185. *)
Definition mapMissingLibraryDependencies (zkSolcOutput : ZkSolcOutput)
    (missingLibraries : list string) : result Error (list Dependency) :=
  foldl
    (λ dependencyMap library,
       pushed ← dependencyMap;
       added ← dependencyOf zkSolcOutput library;
       Ok (pushed ++ added))
    (Ok []) missingLibraries.

(** The entry as [JSON.stringify] prints it: a key whose value is
    [undefined] is left out. *)
Definition json_of_dependency (d : Dependency) : Registry.json :=
  Registry.JObj
    (match dep_contractName d with
     | Some name => [("contractName", Registry.JStr name)]
     | None => []
     end
     ++ [("contractPath", Registry.JStr (dep_contractPath d));
         ("missingLibraries",
          Registry.JArr (Registry.JStr <$> dep_missingLibraries d))]).

(** ** [getLatestRelease] *)

(** A header of undici's response: one string, or the array of the values
    of a header that the answer repeats. *)
Inductive HeaderValue : Type :=
  | Single (value : string)
  | Repeated (values : list string).

Record Response : Type := mkResponse {
  statusCode : Z;
  location : option HeaderValue
}.

Section Release.
(** undici's [request(url, { headersTimeout, maxRedirections: 0,
    method: 'GET', headers: { 'User-Agent': userAgent } })]. *)
Variable request : string → Z → string → result Error Response.

(** [DEFAULT_TIMEOUT_MILISECONDS], a constant that is not among the
    sources. *)
Variable DEFAULT_TIMEOUT_MILISECONDS : Z.

Definition latestUrl (owner repo : string) : string :=
  "https://github.com/" +:+ owner +:+ "/" +:+ repo +:+ "/releases/latest".

Definition redirectUrlPattern (owner repo : string) : string :=
  "https://github.com/" +:+ owner +:+ "/" +:+ repo +:+ "/releases/tag/v".

(** constants.ts, lines 267-306. A [location] header that is an empty
    string is false in the test of line 290; one that is an array is true
    there, and has no [startsWith] to call at line 292. *)
Definition getLatestRelease (owner repo userAgent : string)
    (timeout : option Z) : result Error string :=
  let timeout := default DEFAULT_TIMEOUT_MILISECONDS timeout in
  let url := latestUrl owner repo in
  let redirectUrlPattern := redirectUrlPattern owner repo in
  response ← request url timeout userAgent;
  if ((300 <=? statusCode response) && (statusCode response <? 400))%Z then
    match location response with
    | Some (Repeated _) => Err TypeError
    | Some (Single loc) =>
        if String.eqb loc EmptyString then
          Err (ZkSyncSolcPluginError
                 ("Redirect location not found for URL: " +:+ url))
        else if String.prefix redirectUrlPattern loc then
          Ok (substring_from (String.length redirectUrlPattern) loc)
        else
          Err (ZkSyncSolcPluginError
                 ("Unexpected redirect URL: " +:+ loc +:+ " for URL: " +:+ url))
    | None =>
        Err (ZkSyncSolcPluginError
               ("Redirect location not found for URL: " +:+ url))
    end
  else
    Err (ZkSyncSolcPluginError
           ("Unexpected response status: " +:+ pretty (statusCode response)
            +:+ " for URL: " +:+ url)).
End Release.

(** ** Vocabulary of the statements *)

(** The text after a leading "0x" or "0X"; the whole text when it has
    neither. *)
Definition without_0x (hex : string) : string :=
  match hex with
  | String a (String b rest) =>
      if Ascii.eqb a "0" && (Ascii.eqb b "x" || Ascii.eqb b "X") then rest
      else hex
  | _ => hex
  end.

Definition starts_with_digit (s : string) : bool :=
  match s with
  | String c _ => bool_decide (is_Some (digit_of c))
  | EmptyString => false
  end.

Fixpoint all_digits (s : string) : bool :=
  match s with
  | EmptyString => true
  | String c s' => bool_decide (is_Some (digit_of c)) && all_digits s'
  end.

(** How many times a character occurs. *)
Fixpoint occurrences (c : ascii) (s : string) : nat :=
  match s with
  | EmptyString => 0
  | String c' s' => (if Ascii.eqb c' c then 1 else 0) + occurrences c s'
  end.

(** The text ["a.b.c"] followed by [suffix]. *)
Definition version_text (a b c : N) (suffix : string) : string :=
  pretty a +:+ "." +:+ pretty b +:+ "." +:+ pretty c +:+ suffix.

(** The keys of an object are distinct. *)
Definition distinct_keys {A} (obj : list (string * A)) : Prop :=
  NoDup obj.*1.

(** What one contract adds, and what a file adds. *)
Definition adds_of_contract (entry : string * Contract) (x : string) : Prop :=
  entry.1 ≠ EmptyString
  ∧ ∃ libraries, contract_missingLibraries entry.2 = Some libraries
                 ∧ x ∈ libraries.

Definition adds_of_file (entry : string * list (string * Contract))
    (x : string) : Prop :=
  entry.1 ≠ EmptyString ∧ ∃ c, c ∈ entry.2 ∧ adds_of_contract c x.

(** A compiler output where A misses the library L, which itself misses
    M. *)
Definition sample_output : ZkSolcOutput :=
  mkZkSolcOutput
    (Some [("contracts/A.sol",
            [("A", mkContract (Some ["contracts/L.sol:L"]))]);
           ("contracts/L.sol",
            [("L", mkContract (Some ["contracts/M.sol:M"]))])]).

End Utils.

Module Matcher.
Import Balance.

(** The [changeEtherBalances] assertion of part_000, lines 10-77. *)

(** How the derived promise can reject: with what the balance computation
    or a conversion threw, or with the assertion's own error. *)
Inductive Failure : Type :=
| Rejected (e : Balance.Error)
| AssertionError (message : string).

Definition rejecting {A} (r : result Balance.Error A) : result Failure A :=
  match r with
  | Ok a => Ok a
  | Err e => Err (Rejected e)
  end.

#[export] Instance failure_ret : MRet (result Failure) := λ A a, Ok a.

#[export] Instance failure_bind : MBind (result Failure) := λ A B f r,
  match r with
  | Ok a => f a
  | Err e => Err e
  end.

(** The third argument of the assertion. *)
Record MatcherOptions : Type := mkMatcherOptions {
  balanceChangeOptions : option BalanceChangeOptions;
  overrides : option Overrides
}.

Section WithChain.
Context `{Chain}.

(** [getAddresses] of misc/balance, the [ordinal] package, and how a number
    prints: none of them is among the sources. *)
Variable getAddresses : list Account → result Error (list string).
Variable ordinal : nat → string.
Variable number_toString : Z → string.

(** [toBigInt(balanceChanges[ind])]; [toBigInt(undefined)] is refused. *)
Definition toBigInt_at (balanceChanges : list BigNumberish) (ind : nat)
    : result Error Z :=
  match balanceChanges !! ind with
  | Some v => toBigInt v
  | None => Err InvalidArgument
  end.

(** [balanceChanges[i].toString()]. *)
Definition toString_at (balanceChanges : list BigNumberish) (i : nat)
    : result Error string :=
  match balanceChanges !! i with
  | Some (BNbigint n) => Ok (pretty n)
  | Some (BNnumber n) => Ok (number_toString n)
  | Some (BNstring s) => Ok s
  | None => Err TypeError
  end.

(** Line 33: [actualChanges.every((change, ind) => change ===
    toBigInt(balanceChanges[ind]))], from index [ind] on; it stops at the
    first change that differs. *)
Fixpoint every_from (ind : nat) (actualChanges : list Z)
    (balanceChanges : list BigNumberish) : result Error bool :=
  match actualChanges with
  | [] => Ok true
  | change :: rest =>
      match toBigInt_at balanceChanges ind with
      | Ok expected =>
          if (change =? expected)%Z
          then every_from (S ind) rest balanceChanges
          else Ok false
      | Err e => Err e
      end
  end.

(** Lines 39-43 and 54-58: one line of a message. *)
Definition lineOf (negatedMessage : bool) (address : string) (i : nat)
    (expected : string) (change : Z) : string :=
  if negatedMessage then
    "Expected the ether balance of " +:+ address +:+ " (the "
    +:+ ordinal (i + 1) +:+ " address in the list) NOT to change by "
    +:+ expected +:+ " wei, but it did"
  else
    "Expected the ether balance of " +:+ address +:+ " (the "
    +:+ ordinal (i + 1) +:+ " address in the list) to change by "
    +:+ expected +:+ " wei, but it changed by " +:+ pretty change +:+ " wei".

(** Lines 35-46 and 50-61: the [forEach] of a message function. The first
    one ([negatedMessage] false) pushes a line for each change that differs
    from the expected one, the second for each change that equals it. *)
Fixpoint lines_from (negatedMessage : bool) (i : nat) (actualChanges : list Z)
    (balanceChanges : list BigNumberish) (accountAddresses : list string)
    : result Error (list string) :=
  match actualChanges with
  | [] => Ok []
  | change :: rest =>
      expected ← toBigInt_at balanceChanges i;
      pushed ←
        (if bool_decide ((change =? expected)%Z = negatedMessage) then
           text ← toString_at balanceChanges i;
           Ok [lineOf negatedMessage
                 (default "undefined" (accountAddresses !! i)) i text change]
         else Ok []);
      lines ← lines_from negatedMessage (S i) rest balanceChanges
                 accountAddresses;
      Ok (pushed ++ lines)
  end.

(** [lines.join('\n')]. *)
Fixpoint join (lines : list string) : string :=
  match lines with
  | [] => EmptyString
  | [line] => line
  | line :: rest => line +:+ String (ascii_of_nat 10) (join rest)
  end.

(** [buildAssert(negated, _)] of hardhat-chai-matchers, applied: the
    message function of the failing side is called, the other is not. *)
Definition buildAssert (negated : bool) (condition : bool)
    (messageFalse messageTrue : result Error string) : result Failure unit :=
  if negb negated && negb condition then
    message ← rejecting messageFalse; Err (AssertionError message)
  else if negated && condition then
    message ← rejecting messageTrue; Err (AssertionError message)
  else Ok tt.

(** Lines 29-65. *)
Definition checkBalanceChanges (negated : bool)
    (balanceChanges : list BigNumberish)
    (actualChanges : list Z) (accountAddresses : list string)
    : result Failure unit :=
  condition ← rejecting (every_from 0 actualChanges balanceChanges);
  buildAssert negated condition
    (lines ← lines_from false 0 actualChanges balanceChanges accountAddresses;
     Ok (join lines))
    (lines ← lines_from true 0 actualChanges balanceChanges accountAddresses;
     Ok (join lines)).

(** Lines 13-75: the promise the assertion derives. [Promise.all] needs
    both computations; when both reject, the rejection of the first is the
    one modelled. *)
Definition changeEtherBalances (negated : bool)
    (subject : result Error TransactionResponse) (accounts : list Account)
    (balanceChanges : list BigNumberish) (options : option MatcherOptions)
    : result Failure unit :=
  actualChanges ← rejecting
    (getBalanceChanges subject accounts (options ≫= balanceChangeOptions)
       (options ≫= overrides));
  accountAddresses ← rejecting (getAddresses accounts);
  checkBalanceChanges negated balanceChanges actualChanges accountAddresses.
End WithChain.

End Matcher.
(** * The registry writer: proofs *)

Section RegistryProofs.
Import Registry.

(** ** Step lemmas: what each call does in each situation *)

(** Two worlds built by the setters agree once their traces are
    re-associated. *)
Ltac world_eq :=
  unfold set_locks, set_files, log; simpl;
  f_equal; f_equal; rewrite <- ?app_assoc; reflexivity.

Lemma getOrCreate_present p c w :
  files w !! p = Some c →
  getOrCreateLibraries p w
  = (JSON_parse c, log (EvReadJSON p) (log (EvPathExists p) w)).
Proof.
  intros Hf. unfold getOrCreateLibraries, mbind, M_bind, pathExists, readJSON.
  rewrite Hf. simpl. by rewrite Hf.
Qed.

Lemma getOrCreate_created p w :
  files w !! p = None → p ∉ readonly w →
  getOrCreateLibraries p w
  = (Ok (JArr []),
     log (EvReadJSON p)
       (set_files (<[p:=JsonText (JArr [])]> (files w))
          (log (EvOutputFile p (JsonText (JArr []))) (log (EvPathExists p) w)))).
Proof.
  intros Hf Hro.
  unfold getOrCreateLibraries, mbind, M_bind, pathExists, readJSON,
    outputFile, write_file.
  rewrite Hf. simpl. destruct (decide (p ∈ readonly w)) as [|_]; [done|].
  simpl. by rewrite lookup_insert_eq.
Qed.

Lemma getOrCreate_refused p w :
  files w !! p = None → p ∈ readonly w →
  getOrCreateLibraries p w
  = (Err (SystemError EACCES),
     log (EvOutputFile p (JsonText (JArr []))) (log (EvPathExists p) w)).
Proof.
  intros Hf Hro.
  unfold getOrCreateLibraries, mbind, M_bind, pathExists, outputFile, write_file.
  rewrite Hf. simpl. by destruct (decide (p ∈ readonly w)).
Qed.

Lemma lock_acquired p w :
  is_Some (files w !! p) → free_within 10 (locks w !! p) = true →
  lock p 10 w = (Ok tt, set_locks (<[p:=Self]> (locks w)) (log (EvLock p) w)).
Proof.
  intros [c Hf] Hfree. unfold lock. simpl. rewrite Hf.
  destruct (locks w !! p) as [[|busy]|]; simpl in Hfree; try done.
  apply bool_decide_eq_true in Hfree. by destruct (decide (busy ≤ 10)%nat).
Qed.

Lemma lock_timeout p w :
  is_Some (files w !! p) → free_within 10 (locks w !! p) = false →
  ∃ w', lock p 10 w = (Err (SystemError ELOCKED), w')
        ∧ files w' = files w ∧ readonly w' = readonly w
        ∧ trace w' = trace w ++ [EvLock p]
        ∧ (locks w' !! p = Some Self ↔ locks w !! p = Some Self).
Proof.
  intros [c Hf] Hfree. unfold lock. simpl. rewrite Hf.
  destruct (locks w !! p) as [[|busy]|] eqn:Hl; simpl in Hfree; try done.
  - eexists. split; [done|]. simpl. by rewrite Hl.
  - apply bool_decide_eq_false in Hfree.
    destruct (decide (busy ≤ 10)%nat); [done|].
    eexists. split; [done|]. simpl. rewrite lookup_insert_eq. naive_solver.
Qed.

Lemma mergeAndWrite_written p libs v xs w :
  files w !! p = Some (JsonText v) → spread v = Ok xs → p ∉ readonly w →
  mergeAndWrite p libs w
  = (Ok tt,
     set_files (<[p:=JsonText (JArr (xs ++ libs))]> (files w))
       (log (EvOutputFileSync p (JsonText (JArr (xs ++ libs))))
          (log (EvReadJSON p) (log (EvPathExists p) w)))).
Proof.
  intros Hf Hs Hro. unfold mergeAndWrite.
  unfold mbind at 1, M_bind at 1. rewrite (getOrCreate_present _ _ _ Hf). simpl.
  unfold mbind, M_bind, lift. rewrite Hs.
  unfold outputFileSync, write_file, JSON_stringify. simpl.
  by destruct (decide (p ∈ readonly w)).
Qed.

Lemma mergeAndWrite_not_iterable p libs v w :
  files w !! p = Some (JsonText v) → iterable v = false →
  mergeAndWrite p libs w
  = (Err TypeError, log (EvReadJSON p) (log (EvPathExists p) w)).
Proof.
  intros Hf Hs. unfold mergeAndWrite.
  unfold mbind at 1, M_bind at 1. rewrite (getOrCreate_present _ _ _ Hf). simpl.
  unfold mbind, M_bind, lift. by destruct v.
Qed.

Lemma mergeAndWrite_refused p libs v xs w :
  files w !! p = Some (JsonText v) → spread v = Ok xs → p ∈ readonly w →
  mergeAndWrite p libs w
  = (Err (SystemError EACCES),
     log (EvOutputFileSync p (JsonText (JArr (xs ++ libs))))
       (log (EvReadJSON p) (log (EvPathExists p) w))).
Proof.
  intros Hf Hs Hro. unfold mergeAndWrite.
  unfold mbind at 1, M_bind at 1. rewrite (getOrCreate_present _ _ _ Hf). simpl.
  unfold mbind, M_bind, lift. rewrite Hs.
  unfold outputFileSync, write_file, JSON_stringify. simpl.
  by destruct (decide (p ∈ readonly w)).
Qed.

(** A call on an existing, well-formed, writable file whose lock is free. *)
Lemma write_existing p libs v xs w :
  files w !! p = Some (JsonText v) → spread v = Ok xs →
  p ∉ readonly w → free_within 10 (locks w !! p) = true →
  writeLibrariesToFile p libs w
  = (Ok tt,
     mkWorld (<[p:=JsonText (JArr (xs ++ libs))]> (files w)) (readonly w)
       (delete p (<[p:=Self]> (locks w)))
       (trace w ++ [EvPathExists p] ++ [EvReadJSON p] ++ [EvLock p]
          ++ [EvPathExists p] ++ [EvReadJSON p]
          ++ [EvOutputFileSync p (JsonText (JArr (xs ++ libs)))]
          ++ [EvUnlock p])).
Proof.
  intros Hf Hs Hro Hfree.
  unfold writeLibrariesToFile, try_catch_finally, writeBody.
  unfold mbind at 1, M_bind at 1. rewrite (getOrCreate_present _ _ _ Hf). simpl.
  unfold mbind at 1, M_bind at 1. rewrite lock_acquired; [|simpl; by rewrite Hf|done].
  rewrite (mergeAndWrite_written _ _ v xs); [|done..].
  unfold unlock. simpl. rewrite !lookup_insert_eq. world_eq.
Qed.

(** A call on a path where no file exists yet. *)
Lemma write_fresh p libs w :
  files w !! p = None →
  p ∉ readonly w → free_within 10 (locks w !! p) = true →
  writeLibrariesToFile p libs w
  = (Ok tt,
     mkWorld (<[p:=JsonText (JArr libs)]> (files w)) (readonly w)
       (delete p (<[p:=Self]> (locks w)))
       (trace w ++ [EvPathExists p] ++ [EvOutputFile p (JsonText (JArr []))]
          ++ [EvReadJSON p] ++ [EvLock p]
          ++ [EvPathExists p] ++ [EvReadJSON p]
          ++ [EvOutputFileSync p (JsonText (JArr libs))]
          ++ [EvUnlock p])).
Proof.
  intros Hf Hro Hfree.
  unfold writeLibrariesToFile, try_catch_finally, writeBody.
  unfold mbind at 1, M_bind at 1. rewrite getOrCreate_created; [|done..].
  unfold mbind at 1, M_bind at 1.
  rewrite lock_acquired; [|simpl; by rewrite lookup_insert_eq|done].
  rewrite (mergeAndWrite_written _ _ (JArr []) []);
    [|simpl; by rewrite lookup_insert_eq|done|done].
  unfold unlock. simpl. rewrite !lookup_insert_eq, insert_insert_eq. world_eq.
Qed.

(** ** What a call may add to the trace *)

Lemma new_events_app w w' evs :
  trace w' = trace w ++ evs → new_events w w' = evs.
Proof. intros Ht. unfold new_events. rewrite Ht. apply drop_app_length. Qed.

Section Emits.
Context (P : Event → Prop).

Lemma emits_one {A} (m : M A) ev :
  P ev → (∀ w, trace (m w).2 = trace w ++ [ev]) → emits P m.
Proof. intros HP Hm w. exists [ev]. split; [apply Hm | by constructor]. Qed.

Lemma emits_ret {A} (a : A) : emits P (mret a : M A).
Proof. intros w. exists []. split; [by rewrite app_nil_r | constructor]. Qed.


Lemma emits_lift {A} (r : result Error A) : emits P (lift r).
Proof. intros w. exists []. split; [by rewrite app_nil_r | constructor]. Qed.

Lemma emits_bind {A B} (m : M A) (f : A → M B) :
  emits P m → (∀ a, emits P (f a)) → emits P (m ≫= f).
Proof.
  intros Hm Hf w. unfold mbind, M_bind.
  destruct (Hm w) as (evs1 & Ht1 & HP1).
  destruct (m w) as [[a|e] w1]; simpl in *.
  - destruct (Hf a w1) as (evs2 & Ht2 & HP2).
    exists (evs1 ++ evs2). split; [|by rewrite Forall_app].
    by rewrite Ht2, Ht1, app_assoc.
  - by exists evs1.
Qed.


Lemma emits_pathExists p : P (EvPathExists p) → emits P (pathExists p).
Proof. intros HP. by apply (emits_one _ (EvPathExists p)). Qed.

Lemma emits_write_file ev p c : P ev → emits P (write_file ev p c).
Proof.
  intros HP. apply (emits_one _ ev); [done|]. intros w. unfold write_file.
  simpl. by destruct (decide (p ∈ readonly w)).
Qed.

Lemma emits_readJSON p : P (EvReadJSON p) → emits P (readJSON p).
Proof.
  intros HP. apply (emits_one _ (EvReadJSON p)); [done|]. intros w.
  unfold readJSON. simpl. by destruct (files w !! p).
Qed.

Lemma emits_lock p n : P (EvLock p) → emits P (lock p n).
Proof.
  intros HP. apply (emits_one _ (EvLock p)); [done|]. intros w.
  unfold lock. simpl. destruct (files w !! p); [|done].
  destruct (locks w !! p) as [[|busy]|]; try done.
  by destruct (decide (busy ≤ n)%nat).
Qed.

Lemma unlock_trace p w : trace (unlock p w).2 = trace w ++ [EvUnlock p].
Proof.
  unfold unlock. simpl. destruct (files w !! p); [|done].
  by destruct (locks w !! p) as [[|busy]|].
Qed.

Lemma emits_getOrCreateLibraries p :
  P (EvPathExists p) → P (EvOutputFile p (JsonText (JArr []))) →
  P (EvReadJSON p) → emits P (getOrCreateLibraries p).
Proof.
  intros H1 H2 H3. unfold getOrCreateLibraries.
  apply emits_bind; [by apply emits_pathExists|]. intros found.
  apply emits_bind; [|intros; by apply emits_readJSON].
  destruct found; simpl; [apply emits_ret | by apply emits_write_file].
Qed.

Lemma emits_writeBody p libs :
  P (EvPathExists p) → P (EvOutputFile p (JsonText (JArr []))) →
  P (EvReadJSON p) → P (EvLock p) → (∀ c, P (EvOutputFileSync p c)) →
  emits P (writeBody p libs).
Proof.
  intros H1 H2 H3 H4 H5. unfold writeBody.
  apply emits_bind; [by apply emits_getOrCreateLibraries|]. intros _.
  apply emits_bind; [by apply emits_lock|]. intros _.
  unfold mergeAndWrite.
  apply emits_bind; [by apply emits_getOrCreateLibraries|]. intros v.
  apply emits_bind; [apply emits_lift|]. intros xs.
  by apply emits_write_file.
Qed.
End Emits.


(** ** The statement as a whole *)

Lemma write_unfold p libs w :
  writeLibrariesToFile p libs w
  = match writeBody p libs w with
    | (Ok a, wb) =>
        match unlock p wb with
        | (Ok _, w2) => (Ok a, w2)
        | (Err e', w2) => (Err e', w2)
        end
    | (Err e, wb) =>
        match unlock p wb with
        | (Ok _, w2) => (Err (ZkSyncSolcPluginError e), w2)
        | (Err e', w2) => (Err e', w2)
        end
    end.
Proof.
  unfold writeLibrariesToFile, try_catch_finally, throw.
  by destruct (writeBody p libs w) as [[a|e] wb].
Qed.

Lemma unlock_held p w :
  is_Some (files w !! p) → locks w !! p = Some Self →
  unlock p w = (Ok tt, set_locks (delete p (locks w)) (log (EvUnlock p) w)).
Proof. intros [c Hf] Hl. unfold unlock. simpl. by rewrite Hf, Hl. Qed.

Lemma unlock_not_held p w :
  locks w !! p ≠ Some Self →
  ∃ c, unlock p w = (Err (SystemError c), log (EvUnlock p) w)
       ∧ (c = ENOTACQUIRED ∨ c = ENOENT).
Proof.
  intros Hl. unfold unlock. simpl. destruct (files w !! p); [|by eauto].
  destruct (locks w !! p) as [[|busy]|]; by eauto.
Qed.

Lemma unlock_frame p w :
  is_Some (files w !! p) →
  files (unlock p w).2 = files w
  ∧ readonly (unlock p w).2 = readonly w
  ∧ locks (unlock p w).2 !! p ≠ Some Self.
Proof.
  intros [c Hf]. unfold unlock. simpl. rewrite Hf.
  destruct (locks w !! p) as [[|busy]|] eqn:Hl; simpl;
    rewrite ?lookup_delete_eq, ?Hl; done.
Qed.

(** The first read, in each of its three situations. *)
Lemma getOrCreate_cases p w :
  (∃ c, files w !! p = Some c
        ∧ getOrCreateLibraries p w
          = (JSON_parse c, log (EvReadJSON p) (log (EvPathExists p) w)))
  ∨ (files w !! p = None ∧ (p ∉ readonly w)
     ∧ getOrCreateLibraries p w
       = (Ok (JArr []),
          log (EvReadJSON p)
            (set_files (<[p:=JsonText (JArr [])]> (files w))
               (log (EvOutputFile p (JsonText (JArr [])))
                  (log (EvPathExists p) w)))))
  ∨ (files w !! p = None ∧ p ∈ readonly w
     ∧ getOrCreateLibraries p w
       = (Err (SystemError EACCES),
          log (EvOutputFile p (JsonText (JArr []))) (log (EvPathExists p) w))).
Proof.
  destruct (files w !! p) as [c|] eqn:Hf.
  - left. exists c. split; [done|]. by apply getOrCreate_present.
  - destruct (decide (p ∈ readonly w)).
    + right; right. split_and!; [done..|]. by apply getOrCreate_refused.
    + right; left. split_and!; [done..|]. by apply getOrCreate_created.
Qed.

Lemma getOrCreate_frame p w :
  locks (getOrCreateLibraries p w).2 = locks w
  ∧ readonly (getOrCreateLibraries p w).2 = readonly w.
Proof.
  destruct (getOrCreate_cases p w)
    as [(c & _ & ->)|[(_ & _ & ->)|(_ & _ & ->)]]; done.
Qed.


Lemma getOrCreate_err p w e w1 :
  getOrCreateLibraries p w = (Err e, w1) → files w1 = files w.
Proof.
  destruct (getOrCreate_cases p w)
    as [(c & Hf & ->)|[(Hf & _ & ->)|(_ & _ & ->)]]; by intros [= _ <-].
Qed.

Lemma lock_ok p w w2 :
  lock p 10 w = (Ok tt, w2) →
  is_Some (files w !! p)
  ∧ w2 = set_locks (<[p:=Self]> (locks w)) (log (EvLock p) w).
Proof.
  unfold lock. simpl. destruct (files w !! p) as [c|]; [|done].
  destruct (locks w !! p) as [[|busy]|]; try done.
  - destruct (decide (busy ≤ 10)%nat); [|done]. intros [= <-]. eauto.
  - intros [= <-]. eauto.
Qed.

Lemma lock_err p w e w2 :
  lock p 10 w = (Err e, w2) →
  files w2 = files w
  ∧ (locks w2 !! p = Some Self ↔ locks w !! p = Some Self).
Proof.
  unfold lock. simpl. destruct (files w !! p) as [c|]; [|by intros [= _ <-]].
  destruct (locks w !! p) as [[|busy]|] eqn:Hl; try done.
  - intros [= _ <-]. simpl. by rewrite Hl.
  - destruct (decide (busy ≤ 10)%nat); [done|]. intros [= _ <-]. simpl.
    rewrite lookup_insert_eq. naive_solver.
Qed.

(** Under the lock: the four outcomes of the merge. *)
Lemma mergeAndWrite_unparsable p libs s w :
  files w !! p = Some (RawText s) →
  mergeAndWrite p libs w
  = (Err SyntaxError, log (EvReadJSON p) (log (EvPathExists p) w)).
Proof.
  intros Hf. unfold mergeAndWrite.
  unfold mbind at 1, M_bind at 1. by rewrite (getOrCreate_present _ _ _ Hf).
Qed.

Lemma mergeAndWrite_frame p libs w :
  is_Some (files w !! p) →
  locks (mergeAndWrite p libs w).2 = locks w
  ∧ is_Some (files (mergeAndWrite p libs w).2 !! p)
  ∧ (is_ok (mergeAndWrite p libs w).1 = false →
     files (mergeAndWrite p libs w).2 = files w).
Proof.
  intros [[v|s] Hf].
  - destruct (iterable v) eqn:Hit.
    + assert (∃ xs, spread v = Ok xs) as [xs Hs] by (destruct v; by eauto).
      destruct (decide (p ∈ readonly w)).
      * rewrite (mergeAndWrite_refused _ _ v xs); [|done..]. simpl.
        by rewrite Hf.
      * rewrite (mergeAndWrite_written _ _ v xs); [|done..]. simpl.
        by rewrite lookup_insert_eq.
    + rewrite (mergeAndWrite_not_iterable _ _ v); [|done..]. simpl.
      by rewrite Hf.
  - rewrite (mergeAndWrite_unparsable _ _ s); [|done]. simpl. by rewrite Hf.
Qed.


(** The [try] body, split at the acquisition. *)
Lemma writeBody_unfold p libs w :
  writeBody p libs w
  = match getOrCreateLibraries p w with
    | (Ok _, w1) =>
        match lock p 10 w1 with
        | (Ok _, w2) => mergeAndWrite p libs w2
        | (Err e, w2) => (Err e, w2)
        end
    | (Err e, w1) => (Err e, w1)
    end.
Proof. done. Qed.

(** ** The claims about the registry *)

(** C9: [getOrCreateLibraries], the registry's ensure-exists step, is
    idempotent on the file system: a second call leaves the files as the
    first one left them; on a path with no file (and a writable one) the
    result is that single file holding the empty array; on a path with a
    file the files are unchanged. *)
Theorem C9_ensure_exists_idempotent p w :
  files (getOrCreateLibraries p (getOrCreateLibraries p w).2).2
  = files (getOrCreateLibraries p w).2
  ∧ (files w !! p = None → p ∉ readonly w →
     files (getOrCreateLibraries p w).2 = <[p:=JsonText (JArr [])]> (files w))
  ∧ (is_Some (files w !! p) → files (getOrCreateLibraries p w).2 = files w).
Proof.
  destruct (getOrCreate_cases p w)
    as [(c & Hf & Hg)|[(Hf & Hro & Hg)|(Hf & Hro & Hg)]]; rewrite Hg; simpl.
  - split_and!; [|by rewrite Hf|done].
    by rewrite (getOrCreate_present p c).
  - split_and!; [|done|by rewrite Hf; intros [? [=]]].
    rewrite (getOrCreate_present p (JsonText (JArr []))); [done|].
    simpl. by rewrite lookup_insert_eq.
  - split_and!; [|done|by rewrite Hf; intros [? [=]]].
    by rewrite getOrCreate_refused.
Qed.

Lemma C9_ensure_exists_idempotent_witness :
  files (getOrCreateLibraries registry_path
           (getOrCreateLibraries registry_path empty_world).2).2
  = <[registry_path:=JsonText (JArr [])]> ∅.
Proof.
  destruct (C9_ensure_exists_idempotent registry_path empty_world)
    as (Htwice & Hfresh & _).
  rewrite Htwice. apply Hfresh; [reflexivity | apply not_elem_of_empty].
Defined.

(** C4: on a writable registry file holding the sequence [E] (a path with
    no file holds the empty sequence) whose lock is free, the call succeeds
    and leaves exactly [E] followed by the appended records, in order and
    without removing duplicates; a further call appends after them, so two
    calls with [[a]] and [[b]] on a fresh path leave [[a; b]]. *)
Theorem C4_append_keeps_order p E R R' w :
  holds w p E → p ∉ readonly w → free_within 10 (locks w !! p) = true →
  let w1 := (writeLibrariesToFile p R w).2 in
  (writeLibrariesToFile p R w).1 = Ok tt
  ∧ files w1 = <[p:=JsonText (JArr (E ++ R))]> (files w)
  ∧ (writeLibrariesToFile p R' w1).1 = Ok tt
  ∧ files (writeLibrariesToFile p R' w1).2 !! p
    = Some (JsonText (JArr (E ++ R ++ R'))).
Proof.
  intros Hh Hro Hfree.
  assert (∃ w1, writeLibrariesToFile p R w = (Ok tt, w1)
     ∧ files w1 = <[p:=JsonText (JArr (E ++ R))]> (files w)
     ∧ readonly w1 = readonly w ∧ locks w1 !! p = None)
    as (w1 & Hw & Hf1 & Hro1 & Hl1).
  { destruct Hh as [Hf|[Hf ->]].
    - rewrite (write_existing _ _ (JArr E) E); [|done..].
      eexists. split; [done|]. simpl. by rewrite lookup_delete_eq.
    - rewrite write_fresh; [|done..].
      eexists. split; [done|]. simpl. by rewrite lookup_delete_eq. }
  rewrite Hw. simpl.
  rewrite (write_existing _ _ (JArr (E ++ R)) (E ++ R)).
  - simpl. rewrite lookup_insert_eq, <- (assoc_L (++)). done.
  - by rewrite Hf1, lookup_insert_eq.
  - done.
  - by rewrite Hro1.
  - by rewrite Hl1.
Qed.

Lemma C4_append_keeps_order_witness :
  files (writeLibrariesToFile registry_path [lib_B]
           (writeLibrariesToFile registry_path [lib_A] empty_world).2).2
    !! registry_path
  = Some (JsonText (JArr [lib_A; lib_B])).
Proof.
  apply (C4_append_keeps_order registry_path [] [lib_A] [lib_B] empty_world).
  - right. split; reflexivity.
  - apply not_elem_of_empty.
  - reflexivity.
Defined.

(** C6: once the lock is taken, whatever the read-merge-write steps do, the
    lock is released before the call ends; when they throw [e] the caller
    receives the plugin's error built from [e], and when they succeed the
    call succeeds. *)
Theorem C6_locked_steps_wrapped_and_released p libs w v w1 w2 :
  getOrCreateLibraries p w = (Ok v, w1) →
  lock p 10 w1 = (Ok tt, w2) →
  (writeLibrariesToFile p libs w).1
  = match (mergeAndWrite p libs w2).1 with
    | Ok _ => Ok tt
    | Err e => Err (ZkSyncSolcPluginError e)
    end
  ∧ locks (writeLibrariesToFile p libs w).2 !! p = None.
Proof.
  intros Hg Hl. rewrite write_unfold, writeBody_unfold, Hg, Hl.
  apply lock_ok in Hl as [Hsome ->].
  destruct (mergeAndWrite_frame p libs
              (set_locks (<[p:=Self]> (locks w1)) (log (EvLock p) w1)) Hsome)
    as (Hlk & Hfile & _).
  destruct (mergeAndWrite p libs _) as [[[]|e] w3]; simpl in *;
    (rewrite unlock_held; [|done|by rewrite Hlk, lookup_insert_eq]);
    simpl; by rewrite lookup_delete_eq.
Qed.

Lemma C6_locked_steps_wrapped_and_released_witness :
  (writeLibrariesToFile registry_path [lib_A] object_world).1
  = Err (ZkSyncSolcPluginError TypeError)
  ∧ locks (writeLibrariesToFile registry_path [lib_A] object_world).2
      !! registry_path = None.
Proof.
  refine (C6_locked_steps_wrapped_and_released registry_path [lib_A]
            object_world (JObj [])
            (getOrCreateLibraries registry_path object_world).2
            (lock registry_path 10
               (getOrCreateLibraries registry_path object_world).2).2 _ _);
    reflexivity.
Defined.

(** When the [try] body fails, so does the call, and it touches no file
    after the body did. *)
Lemma write_after_failed_body p libs w e wb :
  writeBody p libs w = (Err e, wb) → is_Some (files wb !! p) →
  is_ok (writeLibrariesToFile p libs w).1 = false
  ∧ files (writeLibrariesToFile p libs w).2 = files wb
  ∧ locks (writeLibrariesToFile p libs w).2 !! p ≠ Some Self
  ∧ trace (writeLibrariesToFile p libs w).2 = trace wb ++ [EvUnlock p].
Proof.
  intros Hb Hsome. rewrite write_unfold, Hb.
  destruct (unlock_frame p wb Hsome) as (Hf & _ & Hl).
  pose proof (unlock_trace p wb) as Ht.
  by destruct (unlock p wb) as [[[]|e'] w2].
Qed.

(** A file the merge cannot take makes the body fail without touching it. *)
Lemma writeBody_not_mergeable p libs w c :
  files w !! p = Some c → not_mergeable c = true →
  ∃ e wb, writeBody p libs w = (Err e, wb) ∧ files wb = files w
          ∧ (JSON_parse c = Err SyntaxError →
             trace wb = trace w ++ [EvPathExists p; EvReadJSON p]).
Proof.
  intros Hf Hc. rewrite writeBody_unfold, (getOrCreate_present p c); [|done].
  destruct c as [v|s]; simpl in *.
  - destruct (lock p 10 _) as [[[]|e] w2] eqn:Hl.
    + apply lock_ok in Hl as [_ ->].
      rewrite (mergeAndWrite_not_iterable _ _ v);
        [|done|by destruct (iterable v)].
      eexists _, _. by split_and!.
    + apply lock_err in Hl as [Hfl _]. eexists _, _. by split_and!.
  - eexists _, _. split_and!; [done..|]. intros _. simpl.
    by rewrite <- app_assoc.
Qed.

(** C8 (as the code has it): the call returns normally only when every step
    succeeded (the first read, the acquisition, the merge and write, and the
    closing unlock), so no failure ends in a normal return; and a failure of
    the [try] body, whichever step it comes from, reaches the caller as the
    one plugin error built from it whenever the closing unlock succeeds. *)
Theorem C8_failures_propagate p libs w :
  let body := writeBody p libs w in
  let fin := unlock p body.2 in
  let r := (writeLibrariesToFile p libs w).1 in
  (is_ok r = true →
   ∃ v w1 w2 w3,
     getOrCreateLibraries p w = (Ok v, w1)
     ∧ lock p 10 w1 = (Ok tt, w2)
     ∧ mergeAndWrite p libs w2 = (Ok tt, w3)
     ∧ (unlock p w3).1 = Ok tt)
  ∧ (∀ e, body.1 = Err e → is_ok fin.1 = true →
          r = Err (ZkSyncSolcPluginError e)).
Proof.
  simpl. rewrite write_unfold. split.
  - rewrite writeBody_unfold.
    destruct (getOrCreateLibraries p w) as [[v|e] w1];
      [|by destruct (unlock p w1) as [[[]|?] ?]].
    destruct (lock p 10 w1) as [[[]|e] w2] eqn:Hl;
      [|by destruct (unlock p w2) as [[[]|?] ?]].
    destruct (mergeAndWrite p libs w2) as [[[]|e] w3] eqn:Hm;
      [|by destruct (unlock p w3) as [[[]|?] ?]].
    destruct (unlock p w3) as [[[]|?] ?] eqn:Hu; [|done].
    intros _. exists v, w1, w2, w3. by rewrite Hl, Hm, Hu.
  - destruct (writeBody p libs w) as [[[]|e] wb]; simpl; [done|].
    intros ? [= <-]. by destruct (unlock p wb) as [[[]|e'] w2].
Qed.

Lemma C8_failures_propagate_witness :
  (writeLibrariesToFile registry_path [lib_A] object_world).1
  = Err (ZkSyncSolcPluginError TypeError).
Proof.
  apply (C8_failures_propagate registry_path [lib_A] object_world);
    reflexivity.
Defined.

(** C8, as stated, fails: a lock that cannot be acquired and a registry file
    that does not parse end in the very same error, so no classification of
    the error received tells the two failures apart. *)
Lemma C8_counterexample :
  lock registry_path 10
    (getOrCreateLibraries registry_path contended_world).2
  = (Err (SystemError ELOCKED),
     (writeBody registry_path [lib_A] contended_world).2)
  ∧ (getOrCreateLibraries registry_path corrupt_world).1 = Err SyntaxError
  ∧ ¬ ∃ is_lock_timeout : Error → bool,
        (∀ e, (writeLibrariesToFile registry_path [lib_A] contended_world).1
              = Err e → is_lock_timeout e = true)
        ∧ (∀ e, (writeLibrariesToFile registry_path [lib_A] corrupt_world).1
                = Err e → is_lock_timeout e = false).
Proof.
  split_and!; [reflexivity..|].
  intros (k & Ht & Hc).
  specialize (Ht (SystemError ENOTACQUIRED) eq_refl).
  specialize (Hc (SystemError ENOTACQUIRED) eq_refl).
  congruence.
Qed.

(** C10: every call ends with one unlock of its path, the only one it makes;
    and when the [try] body fails before the lock is this process's (in the
    first read or in the acquisition), that unlock is refused and the error
    the caller receives is the unlock's own, not the one the body threw. *)
Theorem C10_unlock_always_attempted p libs w :
  (∃ evs, new_events w (writeLibrariesToFile p libs w).2 = evs ++ [EvUnlock p]
          ∧ Forall (λ ev, ¬ is_unlock ev) evs)
  ∧ (∀ e, locks w !! p ≠ Some Self → fails_before_lock p w e →
       ∃ c, (writeLibrariesToFile p libs w).1 = Err (SystemError c)
            ∧ (c = ENOTACQUIRED ∨ c = ENOENT)).
Proof.
  split.
  - destruct (emits_writeBody (λ ev, ¬ is_unlock ev) p libs) with (w := w)
      as (evs & Ht & HP); simpl; try tauto.
    exists evs. split; [|done]. apply new_events_app.
    rewrite write_unfold. pose proof (unlock_trace p (writeBody p libs w).2) as Hu.
    destruct (writeBody p libs w) as [[[]|e] wb]; simpl in *;
      destruct (unlock p wb) as [[[]|e'] w2]; simpl in *;
      by rewrite Hu, Ht, app_assoc.
  - intros e Hnot Hfail.
    assert (∃ wb, writeBody p libs w = (Err e, wb)
                  ∧ locks wb !! p ≠ Some Self) as (wb & Hb & Hl).
    { rewrite writeBody_unfold.
      destruct Hfail as [(w1 & Hg)|(v & w1 & w2 & Hg & Hk)]; rewrite Hg.
      - exists w1. split; [done|].
        pose proof (getOrCreate_frame p w) as [Hlk _]. rewrite Hg in Hlk.
        simpl in Hlk. by rewrite Hlk.
      - rewrite Hk. exists w2. split; [done|].
        apply lock_err in Hk as [_ Hiff].
        pose proof (getOrCreate_frame p w) as [Hlk _]. rewrite Hg in Hlk.
        simpl in Hlk. rewrite Hiff, Hlk. done. }
    rewrite write_unfold, Hb.
    destruct (unlock_not_held p wb Hl) as (c & -> & Hc). by exists c.
Qed.

Lemma C10_unlock_always_attempted_witness :
  ∃ c, (writeLibrariesToFile registry_path [lib_A] corrupt_world).1
       = Err (SystemError c)
       ∧ (c = ENOTACQUIRED ∨ c = ENOENT).
Proof.
  apply (proj2 (C10_unlock_always_attempted registry_path [lib_A] corrupt_world)
           SyntaxError).
  - simpl. rewrite lookup_empty. discriminate.
  - left. eexists. reflexivity.
Defined.

(** C5 (as the code has it): when the registry file holds text that does not
    parse, or a JSON value that cannot be spread, the call fails, the files
    are left as they were, and this process does not hold the lock
    afterwards; for text that does not parse the failure is that of the
    first read: the call checks the path, reads, and unlocks, and never
    tries to acquire the lock. *)
Theorem C5_unmergeable_file_rejected p libs w c :
  files w !! p = Some c → not_mergeable c = true →
  is_ok (writeLibrariesToFile p libs w).1 = false
  ∧ files (writeLibrariesToFile p libs w).2 = files w
  ∧ locks (writeLibrariesToFile p libs w).2 !! p ≠ Some Self
  ∧ (JSON_parse c = Err SyntaxError →
     new_events w (writeLibrariesToFile p libs w).2
     = [EvPathExists p; EvReadJSON p; EvUnlock p]).
Proof.
  intros Hf Hc.
  destruct (writeBody_not_mergeable p libs w c Hf Hc) as (e & wb & Hb & Hfb & Htb).
  destruct (write_after_failed_body p libs w e wb Hb) as (Hr & Hfw & Hlw & Htw).
  { rewrite Hfb, Hf. eauto. }
  split_and!; [done|by rewrite Hfw|done|].
  intros Hparse. apply new_events_app.
  by rewrite Htw, (Htb Hparse), <- app_assoc.
Qed.

Lemma C5_unmergeable_file_rejected_witness :
  is_ok (writeLibrariesToFile registry_path [lib_A] corrupt_world).1 = false
  ∧ files (writeLibrariesToFile registry_path [lib_A] corrupt_world).2
    = files corrupt_world
  ∧ locks (writeLibrariesToFile registry_path [lib_A] corrupt_world).2
      !! registry_path ≠ Some Self
  ∧ (JSON_parse (RawText "[{") = Err SyntaxError →
     new_events corrupt_world
       (writeLibrariesToFile registry_path [lib_A] corrupt_world).2
     = [EvPathExists registry_path; EvReadJSON registry_path;
        EvUnlock registry_path]).
Proof.
  apply (C5_unmergeable_file_rejected registry_path [lib_A] corrupt_world
           (RawText "[{")); reflexivity.
Defined.

(** C5, as stated, fails: on a registry file that does not parse the call
    does not fail in a read made under the lock; the error it ends in is not
    a parse error, and no lock acquisition appears among its calls. *)
Lemma C5_counterexample :
  files corrupt_world !! registry_path = Some (RawText "[{")
  ∧ ¬ rejected_under_lock registry_path
        (writeLibrariesToFile registry_path [lib_A] corrupt_world).1
        (new_events corrupt_world
           (writeLibrariesToFile registry_path [lib_A] corrupt_world).2).
Proof.
  split; [reflexivity|].
  intros [[Hr|Hr] _]; vm_compute in Hr; discriminate.
Qed.






End RegistryProofs.

(** * The balance changes: proofs *)

Section BalanceProofs.
Import Balance.
Context `{Chain}.

Local Open Scope Z_scope.

(** ** [Promise.all] over a list *)

Lemma mapM_Ok_Forall2 {A B} (f : A → result Error B) l ys :
  mapM f l = Ok ys ↔ Forall2 (λ x y, f x = Ok y) l ys.
Proof.
  revert ys. induction l as [|x l IH]; intros ys; simpl.
  - split; [intros [= <-]; constructor | by inversion 1].
  - unfold mbind at 1, result_bind at 1.
    destruct (f x) as [y|e] eqn:Hx.
    + unfold mbind, result_bind, mret, result_ret.
      destruct (mapM f l) as [k|e] eqn:Hl.
      * split.
        -- intros [= <-]. constructor; [done|]. by apply IH.
        -- inversion 1 as [|? y' ? k' Hy Hk]; subst.
           apply IH in Hk. congruence.
      * split; [done|]. inversion 1 as [|? y' ? k' Hy Hk]; subst.
        apply IH in Hk. congruence.
    + split; [done|]. inversion 1; congruence.
Qed.

(** ** The last [map] of [getBalanceChanges] *)

Lemma changes_from k (afters fees befores : list Z) :
  length fees = (k + length afters)%nat →
  length befores = (k + length afters)%nat →
  ∃ deltas,
    mapM (λ '(ind, balance), changeAt fees befores ind balance)
      (imap (λ i x, ((k + i)%nat, x)) afters) = Ok deltas
    ∧ Forall2 (λ '(ind, after) delta,
                 ∃ fee before, fees !! ind = Some fee
                               ∧ befores !! ind = Some before
                               ∧ delta = after + fee - before)
        (imap (λ i x, ((k + i)%nat, x)) afters) deltas.
Proof.
  revert k. induction afters as [|a afters IH]; intros k Hf Hb; simpl.
  - exists []. split; [done|constructor].
  - destruct (IH (S k)) as (deltas & Hd & Hall); [simpl in *; lia..|].
    assert (imap ((λ i x, ((k + i)%nat, x)) ∘ S) afters
            = imap (λ i x, ((S k + i)%nat, x)) afters) as ->.
    { apply imap_ext. intros i x _. simpl. f_equal. lia. }
    destruct (lookup_lt_is_Some_2 fees (k + 0)) as [fee Hfee];
      [simpl in *; lia|].
    destruct (lookup_lt_is_Some_2 befores (k + 0)) as [before Hbefore];
      [simpl in *; lia|].
    exists ((a + fee - before) :: deltas).
    unfold mbind at 1, result_bind at 1. unfold changeAt at 1.
    rewrite Hfee, Hbefore, Hd. split; [done|].
    constructor; [|done]. by eauto.
Qed.

Lemma getBalances_lookup accounts height balances i account :
  getBalances accounts height = Ok balances → accounts !! i = Some account →
  ∃ address balance, getAddressOf account = Ok address
                     ∧ getBalance address height = Ok balance
                     ∧ balances !! i = Some balance.
Proof.
  intros Hb Hi. apply mapM_Ok_Forall2 in Hb.
  destruct (Forall2_lookup_l _ _ _ _ _ Hb Hi) as (balance & Hbi & Hread).
  unfold mbind, result_bind in Hread.
  destruct (getAddressOf account) as [address|e]; [|done].
  by exists address, balance.
Qed.

(** ** The claims about the balance changes *)

(** C2: when the receipt, the two balance samples and the fees are
    obtained, [getBalanceChanges] returns one change per account, in the
    order of the accounts; the change of an account is its balance at the
    receipt's block minus its balance one block earlier, plus its fee
    contribution. *)
Theorem C2_change_is_after_minus_before_plus_fee
    transaction txResponse txReceipt accounts options overrides
    afters befores fees :
  transaction = Ok txResponse → wait txResponse = Ok txReceipt →
  getBalances accounts (blockNumber txReceipt) = Ok afters →
  getBalances accounts (blockNumber txReceipt - 1) = Ok befores →
  getTxFees accounts txResponse options overrides = Ok fees →
  ∃ deltas,
    getBalanceChanges transaction accounts options overrides = Ok deltas
    ∧ length deltas = length accounts
    ∧ ∀ i account, accounts !! i = Some account →
        ∃ address after before fee,
          getAddressOf account = Ok address
          ∧ getBalance address (blockNumber txReceipt) = Ok after
          ∧ getBalance address (blockNumber txReceipt - 1) = Ok before
          ∧ fees !! i = Some fee
          ∧ deltas !! i = Some (after - before + fee).
Proof.
  intros -> Hw Ha Hb Hf.
  pose proof (proj1 (mapM_Ok_Forall2 _ _ _) Ha) as Hla.
  pose proof (proj1 (mapM_Ok_Forall2 _ _ _) Hb) as Hlb.
  pose proof (proj1 (mapM_Ok_Forall2 _ _ _) Hf) as Hlf.
  apply Forall2_length in Hla, Hlb, Hlf.
  destruct (changes_from 0 afters fees befores) as (deltas & Hd & Hall);
    [simpl; congruence..|].
  exists deltas. split_and!.
  - unfold getBalanceChanges, mbind, result_bind.
    rewrite Hw, Ha, Hb, Hf. exact Hd.
  - apply Forall2_length in Hall. rewrite length_imap in Hall. congruence.
  - intros i account Hi.
    destruct (getBalances_lookup _ _ _ _ _ Ha Hi)
      as (address & after & Haddr & Hafter & Hai).
    destruct (getBalances_lookup _ _ _ _ _ Hb Hi)
      as (address' & before & Haddr' & Hbefore & Hbi).
    assert (address' = address) as -> by congruence.
    assert (imap (λ i x, ((0 + i)%nat, x)) afters !! i = Some (i, after))
      as Him by (by rewrite list_lookup_imap, Hai).
    destruct (Forall2_lookup_l _ _ _ _ _ Hall Him)
      as (delta & Hdi & fee & before' & Hfi & Hbi' & ->).
    exists address, after, before, fee. split_and!; [done..|].
    rewrite Hdi. f_equal. assert (before' = before) by congruence. lia.
Qed.


(** C3: in the fees [getTxFees] returns, the entry of an account is zero
    when [includeFee] is [true] and zero when the account's address is not
    the sender's; for the sender without [includeFee: true] it is the price
    times the gas used. On the sample chain (sender from 1000 to 950, fee
    20) the sender's change is -30 by default and -50 with
    [includeFee: true], the recipient's 70 in both. *)
Theorem C3_fee_only_for_sender
    accounts txResponse options overrides fees i account :
  getTxFees accounts txResponse options overrides = Ok fees →
  accounts !! i = Some account →
  (∃ fee, fees !! i = Some fee
     ∧ (includeFee_true options = true → fee = 0)
     ∧ (∀ address, getAddressOf account = Ok address →
                   address ≠ from txResponse → fee = 0)
     ∧ (includeFee_true options = false →
        getAddressOf account = Ok (from txResponse) →
        ∃ txReceipt price,
          wait txResponse = Ok txReceipt
          ∧ toBigInt (selectGasPrice overrides txReceipt txResponse) = Ok price
          ∧ fee = price * gasUsed txReceipt))
  ∧ @getBalanceChanges sample_chain (Ok sample_tx) [sender; recipient]
      None None = Ok [-30; 70]
  ∧ @getBalanceChanges sample_chain (Ok sample_tx) [sender; recipient]
      (Some (mkOptions (Some true))) None = Ok [-50; 70].
Proof.
  intros Hf Hi. split; [|by split].
  apply mapM_Ok_Forall2 in Hf.
  destruct (Forall2_lookup_l _ _ _ _ _ Hf Hi) as (fee & Hfi & Hfee).
  exists fee. split; [done|].
  unfold txFeeOf, mbind, result_bind, mret, result_ret in Hfee.
  destruct (includeFee_true options); simpl in Hfee.
  - split_and!; [by simplify_eq| |done].
    intros. by simplify_eq.
  - destruct (getAddressOf account) as [address|e]; [|done].
    destruct (String.eqb address (from txResponse)) eqn:Heq.
    + apply String.eqb_eq in Heq as ->. split_and!; [done| |].
      * by intros ? [= <-] ?.
      * intros _ _. destruct (wait txResponse) as [txReceipt|e]; [|done].
        destruct (toBigInt _) as [price|e] eqn:Hp; [|done].
        exists txReceipt, price. by simplify_eq.
    + apply String.eqb_neq in Heq. split_and!; [done| |].
      * intros. by simplify_eq.
      * intros _ [= ->]. done.
Qed.

(** C7 (as the code has it): for the sender's fee, the price is
    [maxFeePerGas] when it is supplied and is neither zero nor the empty
    string; otherwise it is the receipt's gas price when the receipt has
    one, otherwise the gas price the transaction declared. *)
Theorem C7_price_of_the_fee txResponse txReceipt options overrides account :
  includeFee_true options = false →
  getAddressOf account = Ok (from txResponse) →
  wait txResponse = Ok txReceipt →
  let fee := txFeeOf txResponse options overrides account in
  let unset := overrides ≫= maxFeePerGas = None
               ∨ ∃ m, overrides ≫= maxFeePerGas = Some m ∧ truthy m = false in
  (∀ m, overrides ≫= maxFeePerGas = Some m → truthy m = true →
        fee = (price ← toBigInt m; Ok (price * gasUsed txReceipt)))
  ∧ (∀ price, unset → receiptGasPrice txReceipt = Some price →
              fee = Ok (price * gasUsed txReceipt))
  ∧ (unset → receiptGasPrice txReceipt = None →
     fee = Ok (gasPrice txResponse * gasUsed txReceipt)).
Proof.
  intros Hinc Haddr Hwait. simpl.
  unfold txFeeOf, selectGasPrice.
  generalize (overrides ≫= maxFeePerGas). intros supplied.
  unfold mbind, result_bind, mret, result_ret.
  rewrite Hinc. simpl. rewrite Haddr, String.eqb_refl, Hwait.
  split_and!.
  - intros m -> ->. done.
  - intros price [->|(m & -> & ->)] ->; done.
  - intros [->|(m & -> & ->)] ->; done.
Qed.

End BalanceProofs.

(** ** The statements on the sample chain *)

Section BalanceSamples.
Import Balance.
Local Open Scope Z_scope.

Lemma C2_change_is_after_minus_before_plus_fee_witness :
  ∃ deltas,
    @getBalanceChanges sample_chain (Ok sample_tx) [sender; recipient]
      None None = Ok deltas
    ∧ length deltas = 2%nat
    ∧ ∀ i account, [sender; recipient] !! i = Some account →
        ∃ address after before fee,
          @getAddressOf sample_chain account = Ok address
          ∧ @getBalance sample_chain address 8 = Ok after
          ∧ @getBalance sample_chain address (8 - 1) = Ok before
          ∧ [20; 0] !! i = Some fee
          ∧ deltas !! i = Some (after - before + fee).
Proof.
  apply (@C2_change_is_after_minus_before_plus_fee sample_chain
           (Ok sample_tx) sample_tx sample_receipt [sender; recipient]
           None None [950; 570] [1000; 500] [20; 0]); reflexivity.
Defined.

Lemma C3_fee_only_for_sender_witness :
  (∃ fee, [20; 0] !! 0%nat = Some fee
     ∧ (@includeFee_true None = true → fee = 0)
     ∧ (∀ address, @getAddressOf sample_chain sender = Ok address →
                   address ≠ from sample_tx → fee = 0)
     ∧ (@includeFee_true None = false →
        @getAddressOf sample_chain sender = Ok (from sample_tx) →
        ∃ txReceipt price,
          wait sample_tx = Ok txReceipt
          ∧ @toBigInt sample_chain (selectGasPrice None txReceipt sample_tx)
            = Ok price
          ∧ fee = price * gasUsed txReceipt))
  ∧ @getBalanceChanges sample_chain (Ok sample_tx) [sender; recipient]
      None None = Ok [-30; 70]
  ∧ @getBalanceChanges sample_chain (Ok sample_tx) [sender; recipient]
      (Some (mkOptions (Some true))) None = Ok [-50; 70].
Proof.
  apply (@C3_fee_only_for_sender sample_chain [sender; recipient] sample_tx
           None None [20; 0] 0%nat sender); reflexivity.
Defined.

Lemma C7_price_of_the_fee_witness :
  @txFeeOf sample_chain sample_tx None zero_override sender = Ok (5 * 4).
Proof.
  destruct (@C7_price_of_the_fee sample_chain sample_tx sample_receipt None
              zero_override sender eq_refl eq_refl eq_refl)
    as (_ & Hreceipt & _).
  apply (Hreceipt 5).
  - right. exists (BNbigint 0). split; reflexivity.
  - reflexivity.
Defined.

(** C7, as stated, fails: a supplied [maxFeePerGas] of zero is not the price
    used; the sender's fee is computed from the receipt's price. *)
Lemma C7_counterexample :
  zero_override ≫= maxFeePerGas = Some (BNbigint 0)
  ∧ ¬ @override_always_used sample_chain zero_override sample_receipt sample_tx
  ∧ @getTxFees sample_chain [sender] sample_tx None zero_override = Ok [20].
Proof.
  split_and!; [reflexivity| |reflexivity].
  intros Hclaim. specialize (Hclaim (BNbigint 0) eq_refl). discriminate.
Qed.

End BalanceSamples.

(** * Versions, selections and releases: proofs *)

Section UtilsProofs.
Import Utils.

#[local] Arguments String.append !_ _ / : simpl nomatch.

(** ** Strings *)

Lemma string_app_assoc (s1 s2 s3 : string) :
  (s1 +:+ s2) +:+ s3 = s1 +:+ (s2 +:+ s3).
Proof. induction s1 as [|c s1 IH]; simpl; [done|]. by rewrite IH. Qed.

Lemma string_app_nil_r (s : string) : s +:+ "" = s.
Proof. induction s as [|c s IH]; simpl; [done|]. by rewrite IH. Qed.

Lemma all_digits_app s1 s2 :
  all_digits (s1 +:+ s2) = all_digits s1 && all_digits s2.
Proof.
  induction s1 as [|c s1 IH]; simpl; [done|]. by rewrite IH, andb_assoc.
Qed.

Lemma digit_of_pretty_char (x : N) :
  (x < 10)%N → digit_of (pretty_N_char x) = Some (Z.of_N x).
Proof.
  intros Hx. rewrite <- (N2Nat.id x).
  assert (N.to_nat x < 10)%nat as Hn by lia. revert Hn.
  generalize (N.to_nat x). intros n Hn.
  do 10 (destruct n as [|n]; [done|]). lia.
Qed.

(** The digits [pretty_N_go] puts in front of [s], and their value. *)
Lemma pretty_N_go_digits (x : N) (s : string) :
  ∃ ds, pretty_N_go x s = ds +:+ s
        ∧ all_digits ds = true
        ∧ ((0 < x)%N → ds ≠ "")
        ∧ ∀ acc t, digits_value acc (ds +:+ t)
                   = digits_value
                       (acc * 10 ^ Z.of_nat (String.length ds) + Z.of_N x) t.
Proof.
  revert s. induction (N.lt_wf_0 x) as [x _ IH]; intros s.
  destruct (decide (x = 0)%N) as [->|Hx].
  - exists "". rewrite pretty_N_go_0. split_and!; [done|done|lia|].
    intros acc t. simpl. f_equal. lia.
  - rewrite pretty_N_go_step by lia.
    destruct (IH (x `div` 10)%N) with (s := String (pretty_N_char (x `mod` 10)) s)
      as (ds & Hgo & Hall & _ & Hval).
    { apply N.div_lt; lia. }
    assert (digit_of (pretty_N_char (x `mod` 10)) = Some (Z.of_N (x `mod` 10)))
      as Hdigit by (apply digit_of_pretty_char, N.mod_lt; lia).
    exists (ds +:+ String (pretty_N_char (x `mod` 10)) "").
    split_and!.
    + by rewrite Hgo, string_app_assoc.
    + rewrite all_digits_app, Hall. simpl.
      by rewrite Hdigit.
    + intros _. by destruct ds.
    + intros acc t. rewrite string_app_assoc. simpl. rewrite Hval. simpl.
      rewrite Hdigit. f_equal.
      assert (String.length (ds +:+ String (pretty_N_char (x `mod` 10)) "")
              = S (String.length ds)) as ->.
      { clear. induction ds as [|c ds IH]; simpl; [done|]. by rewrite IH. }
      rewrite Nat2Z.inj_succ, Z.pow_succ_r by lia.
      rewrite N2Z.inj_div, N2Z.inj_mod.
      pose proof (Z.div_mod (Z.of_N x) 10). lia.
Qed.

Lemma pretty_N_digits (n : N) :
  all_digits (pretty n) = true ∧ pretty n ≠ ""
  ∧ ∀ t, digits_value 0 (pretty n +:+ t) = digits_value (Z.of_N n) t.
Proof.
  unfold pretty, pretty_N. case_decide as Hn.
  - subst. by split_and!.
  - destruct (pretty_N_go_digits n "") as (ds & Hgo & Hall & Hne & Hval).
    rewrite Hgo, string_app_nil_r. split_and!; [done|apply Hne; lia|].
    intros t. rewrite Hval. f_equal; lia.
Qed.


(** ** [parseInt] on numerals *)

Ltac byte_cases :=
  repeat match goal with
         | |- context [(?a =? ?b)%N] => destruct (N.eqb_spec a b)
         | |- context [(?a <=? ?b)%N] => destruct (N.leb_spec a b)
         end; simpl; try done; try lia.

Lemma digit_not_skipped c :
  is_Some (digit_of c) →
  ws1 c = false ∧ (∀ b, ws2 c b = false) ∧ (∀ b e, ws3 c b e = false)
  ∧ byte_is c 45 = false ∧ byte_is c 43 = false
  ∧ Ascii.eqb c "."%char = false.
Proof.
  intros [d Hd]. unfold digit_of in Hd.
  assert (48 ≤ N_of_ascii c ≤ 57)%N as Hc.
  { revert Hd. byte_cases. }
  split_and!.
  - unfold ws1. byte_cases.
  - intros b. unfold ws2, byte_is. byte_cases.
  - intros b e. unfold ws3, byte_is.
    destruct (N.eqb_spec (N_of_ascii c) 225); [lia|].
    destruct (N.eqb_spec (N_of_ascii c) 226); [lia|].
    destruct (N.eqb_spec (N_of_ascii c) 227); [lia|].
    destruct (N.eqb_spec (N_of_ascii c) 239); [lia|]. done.
  - unfold byte_is. byte_cases.
  - unfold byte_is. byte_cases.
  - apply Ascii.eqb_neq. intros ->. simpl in Hc. lia.
Qed.

Lemma digits_value_stop acc t :
  starts_with_digit t = false → digits_value acc t = acc.
Proof.
  destruct t as [|c t]; simpl; [done|]. intros Hc.
  apply bool_decide_eq_false in Hc.
  destruct (digit_of c); [|done]. destruct Hc. eauto.
Qed.

Lemma parseInt_numeral s :
  starts_with_digit s = true → parseInt s = Some (digits_value 0 s).
Proof.
  destruct s as [|c s]; simpl; [done|]. intros Hc.
  apply bool_decide_eq_true in Hc.
  destruct (digit_not_skipped c Hc) as (H1 & H2 & H3 & Hminus & Hplus & _).
  unfold parseInt.
  assert (trimStart (String c s) = String c s) as ->.
  { simpl. rewrite H1. destruct s as [|b s]; [done|]. rewrite H2.
    destruct s as [|e s]; [done|]. by rewrite H3. }
  rewrite Hminus, Hplus. destruct Hc as [d Hd]. rewrite Hd.
  simpl. rewrite Hd. f_equal. lia.
Qed.

Lemma parseInt_v s : parseInt (String "v"%char s) = None.
Proof.
  unfold parseInt.
  assert (trimStart (String "v"%char s) = String "v"%char s) as ->
    by (by destruct s as [|b [|c s]]).
  done.
Qed.

Lemma parseInt_pretty (n : N) t :
  starts_with_digit t = false → parseInt (pretty n +:+ t) = Some (Z.of_N n).
Proof.
  intros Ht. destruct (pretty_N_digits n) as (Hall & Hne & Hval).
  rewrite parseInt_numeral.
  - by rewrite Hval, digits_value_stop.
  - destruct (pretty n) as [|c s]; [done|]. simpl in *.
    by apply andb_prop in Hall as [-> _].
Qed.

(** ** [split] *)

Lemma split_nonempty sep s : ∃ part parts, split sep s = part :: parts.
Proof.
  destruct s as [|c s]; simpl; [by eauto|].
  destruct (Ascii.eqb c sep); [by eauto|].
  destruct (split sep s); by eauto.
Qed.

Lemma length_split sep s : length (split sep s) = S (occurrences sep s).
Proof.
  induction s as [|c s IH]; simpl; [done|].
  destruct (Ascii.eqb c sep); simpl; [by rewrite IH|].
  destruct (split_nonempty sep s) as (part & parts & Hs).
  rewrite Hs in *. simpl in *. done.
Qed.

Lemma split_app_head sep ds rest :
  occurrences sep ds = 0 →
  ∃ part parts, split sep rest = part :: parts
                ∧ split sep (ds +:+ rest) = (ds +:+ part) :: parts.
Proof.
  intros Hds. destruct (split_nonempty sep rest) as (part & parts & Hs).
  exists part, parts. split; [done|].
  induction ds as [|c ds IH]; simpl in *; [done|].
  destruct (Ascii.eqb c sep); [done|]. by rewrite IH.
Qed.

Lemma split_app_sep sep ds rest :
  occurrences sep ds = 0 →
  split sep (ds +:+ String sep rest) = ds :: split sep rest.
Proof.
  intros Hds.
  destruct (split_app_head sep ds (String sep rest) Hds)
    as (part & parts & Hs & ->).
  simpl in Hs. rewrite Ascii.eqb_refl in Hs. injection Hs as <- <-.
  by rewrite string_app_nil_r.
Qed.

Lemma split_head_no_digit sep rest part parts :
  starts_with_digit rest = false → split sep rest = part :: parts →
  starts_with_digit part = false.
Proof.
  destruct rest as [|c rest]; simpl; [by intros _ [= <- _]|].
  intros Hc. destruct (Ascii.eqb c sep); [by intros [= <- _]|].
  destruct (split sep rest); by intros [= <- _].
Qed.

Lemma numeral_no_dot s : all_digits s = true → occurrences "."%char s = 0.
Proof.
  induction s as [|c s IH]; simpl; [done|].
  intros [Hc Hs]%andb_prop. apply bool_decide_eq_true in Hc.
  destruct (digit_not_skipped c Hc) as (_ & _ & _ & _ & _ & ->). auto.
Qed.

Lemma split_version (a b c : N) suffix :
  ∃ part parts,
    split "."%char suffix = part :: parts
    ∧ split "."%char (version_text a b c suffix)
      = pretty a :: pretty b :: (pretty c +:+ part) :: parts.
Proof.
  unfold version_text.
  destruct (pretty_N_digits a) as (Ha & _ & _).
  destruct (pretty_N_digits b) as (Hb & _ & _).
  destruct (pretty_N_digits c) as (Hc & _ & _).
  destruct (split_app_head "."%char (pretty c) suffix (numeral_no_dot _ Hc))
    as (part & parts & Hs & Hsplit).
  exists part, parts. split; [done|].
  change ("." +:+ ?x) with (String "."%char x).
  rewrite split_app_sep by by apply numeral_no_dot.
  change ("." +:+ ?x) with (String "."%char x).
  rewrite split_app_sep by by apply numeral_no_dot.
  by rewrite Hsplit.
Qed.

Lemma components_of_printed (a b c : N) (suffix : string) :
  starts_with_digit suffix = false →
  getVersionComponents (version_text a b c suffix)
  = (Some (Z.of_N a), Some (Z.of_N b), Some (Z.of_N c)).
Proof.
  intros Hsuffix. unfold getVersionComponents.
  destruct (split_version a b c suffix) as (part & parts & Hs & ->).
  unfold parseInt_at. simpl.
  rewrite <- (string_app_nil_r (pretty a)), <- (string_app_nil_r (pretty b)).
  rewrite (parseInt_pretty a "") by done.
  rewrite (parseInt_pretty b "") by done.
  rewrite (parseInt_pretty c part) by (by eapply split_head_no_digit).
  done.
Qed.

(** ** Versions *)

(** X1: the components of a version printed as [a.b.c], each below
    [2 ^ 53] (the range in which the language holds an integer exactly),
    are the three numbers, whatever text follows the third as long as it
    does not go on with a digit (a pre-release tag, a further component);
    with a letter in front, as in [v1.3.5], the first component is NaN and
    the other two are read as before. *)
Theorem X1_version_components_of_printed (a b c : N) (suffix : string) :
  (a < 2 ^ 53)%N → (b < 2 ^ 53)%N → (c < 2 ^ 53)%N →
  starts_with_digit suffix = false →
  getVersionComponents (version_text a b c suffix)
  = (Some (Z.of_N a), Some (Z.of_N b), Some (Z.of_N c))
  ∧ getVersionComponents ("v" +:+ version_text a b c suffix)
    = (None, Some (Z.of_N b), Some (Z.of_N c)).
Proof.
  intros _ _ _ Hsuffix. split; [by apply components_of_printed|].
  unfold getVersionComponents.
  destruct (split_version a b c suffix) as (part & parts & Hs & Hsplit).
  change ("v" +:+ ?x) with (String "v"%char x). cbn [split].
  change (Ascii.eqb "v" ".") with false. cbv iota. rewrite Hsplit.
  unfold parseInt_at. simpl.
  rewrite <- (string_app_nil_r (pretty b)).
  rewrite (parseInt_pretty b "") by done.
  rewrite (parseInt_pretty c part) by (by eapply split_head_no_digit).
  by rewrite parseInt_v.
Qed.

(** X2: a version text with fewer than two dots has no third component: it
    reads as NaN, and the version is then never given the list of 1.3.5
    alone. *)
Theorem X2_version_without_patch (base : list string) (version : string) :
  occurrences "."%char version < 2 →
  (getVersionComponents version).2 = None
  ∧ supportedOutputSelections base version
    = base ++ ["metadata"; "userdoc"; "devdoc"].
Proof.
  intros Hdots.
  assert ((getVersionComponents version).2 = None) as Hnan.
  { unfold getVersionComponents, parseInt_at. simpl.
    rewrite lookup_ge_None_2; [done|]. rewrite length_split. lia. }
  split; [done|]. unfold supportedOutputSelections.
  destruct (getVersionComponents version) as [[v0 v1] v2]. simpl in Hnan.
  subst v2. simpl. by rewrite !andb_false_r.
Qed.

(** X3: for a version printed as [a.b.c], the list of 1.3.5 alone is used
    exactly when [a <= 1], [b <= 3] and [c <= 5] hold one by one; any other
    version, 1.2.9 among them, also gets metadata, userdoc and devdoc. *)
Theorem X3_legacy_selection_is_componentwise (base : list string)
    (a b c : N) (suffix : string) :
  starts_with_digit suffix = false →
  supportedOutputSelections base (version_text a b c suffix)
  = if decide (a ≤ 1 ∧ b ≤ 3 ∧ c ≤ 5)%N then base
    else base ++ ["metadata"; "userdoc"; "devdoc"].
Proof.
  intros Hsuffix. unfold supportedOutputSelections.
  rewrite components_of_printed by done. simpl.
  destruct (Z.leb_spec (Z.of_N a) 1), (Z.leb_spec (Z.of_N b) 3),
    (Z.leb_spec (Z.of_N c) 5); simpl; case_decide; try done; lia.
Qed.


Lemma X1_version_components_of_printed_witness :
  getVersionComponents "1.3.5-beta.2" = (Some 1%Z, Some 3%Z, Some 5%Z)
  ∧ getVersionComponents "v1.3.5-beta.2" = (None, Some 3%Z, Some 5%Z).
Proof.
  apply (X1_version_components_of_printed 1 3 5 "-beta.2");
    reflexivity.
Defined.

Lemma X2_version_without_patch_witness :
  (getVersionComponents "1.3").2 = None
  ∧ supportedOutputSelections ["abi"] "1.3"
    = ["abi"; "metadata"; "userdoc"; "devdoc"].
Proof.
  apply (X2_version_without_patch ["abi"] "1.3"). simpl. lia.
Defined.

Lemma X3_legacy_selection_is_componentwise_witness :
  supportedOutputSelections ["abi"] "1.2.9"
  = ["abi"; "metadata"; "userdoc"; "devdoc"].
Proof.
  apply (X3_legacy_selection_is_componentwise ["abi"] 1 2 9 "").
  reflexivity.
Defined.

(** ** Output selections *)

Section Filter.
Context (base : list string).

#[local] Abbreviation kept := (kept_outputs base).

Lemma inner_fold_is_fmap {A B} (g : A → B) (file : string)
    (acc : gmap string (gmap string B)) (cs : gmap string A) :
  map_fold (λ contract outputs filtered,
              alter (insert contract (g outputs)) file filtered)
    (<[file:=∅]> acc) cs
  = <[file:=g <$> cs]> acc.
Proof.
  apply (map_fold_weak_ind
           (λ r (m : gmap string A), r = <[file:=g <$> m]> acc)).
  - by rewrite fmap_empty.
  - intros contract outputs m r Hm ->.
    by rewrite alter_insert_eq, fmap_insert.
Qed.

Lemma filter_is_fmap (selection : CompilerOutputSelection) (v : string) :
  filterSupportedOutputSelections base selection v
  = fmap (M:=gmap string) (kept v) <$> selection.
Proof.
  unfold filterSupportedOutputSelections.
  apply (map_fold_weak_ind
           (λ r (m : CompilerOutputSelection),
              r = fmap (M:=gmap string) (kept v) <$> m)).
  - by rewrite fmap_empty.
  - intros file cs m r Hm ->.
    by rewrite inner_fold_is_fmap, fmap_insert.
Qed.


Lemma filter_twice (selection : CompilerOutputSelection) (v : string) :
  filterSupportedOutputSelections base
    (filterSupportedOutputSelections base selection v) v
  = filterSupportedOutputSelections base selection v.
Proof.
  rewrite !filter_is_fmap, <- map_fmap_compose.
  apply map_fmap_ext. intros file cs _. simpl.
  rewrite <- map_fmap_compose. apply map_fmap_ext. intros contract outputs _.
  simpl. unfold kept_outputs. induction outputs as [|o outputs IH]; [done|].
  rewrite filter_cons. case_decide as Ho; [|done].
  by rewrite filter_cons, decide_True, IH.
Qed.

(** X5: filtering is idempotent, and filterings for two versions commute:
    a selection already filtered for a version is left as it is by a second
    filtering for that version, and filtering for two versions in either
    order leaves the outputs supported for both. *)
Theorem X5_filter_idempotent (selection : CompilerOutputSelection)
    (v v' : string) :
  filterSupportedOutputSelections base
    (filterSupportedOutputSelections base selection v) v
  = filterSupportedOutputSelections base selection v
  ∧ filterSupportedOutputSelections base
      (filterSupportedOutputSelections base selection v) v'
    = filterSupportedOutputSelections base
        (filterSupportedOutputSelections base selection v') v.
Proof.
  split; [apply filter_twice|].
  rewrite !filter_is_fmap, <- !map_fmap_compose.
  apply map_fmap_ext. intros file cs _. simpl.
  rewrite <- !map_fmap_compose. apply map_fmap_ext. intros contract outputs _.
  simpl. unfold kept_outputs. induction outputs as [|o outputs IH]; [done|].
  rewrite !filter_cons.
  destruct (decide (o ∈ supportedOutputSelections base v)),
    (decide (o ∈ supportedOutputSelections base v'));
    rewrite ?filter_cons, ?decide_True, ?decide_False by done; by rewrite ?IH.
Qed.
End Filter.




(** ** [updateCompilerConf] *)

Section ConfProofs.
Context (base : list string) {Value : Type}.
Implicit Types (compiler : @SolcConfig Value) (zksolc : @ZkSolcConfig Value).

(** The call in one piece. *)
Lemma updateCompilerConf_eq compiler zksolc :
  let before := default (mkSolcSettings None None None ∅) (settings compiler) in
  updateCompilerConf base compiler zksolc
  = mkConfOutcome
      (warnings (updateCompilerConf base compiler zksolc))
      (mkSolcConfig (version compiler)
         (Some (mkSolcSettings
                  (Some (default ∅ (zk_optimizer (zk_settings zksolc))))
                  (zk_metadata (zk_settings zksolc))
                  ((λ selection,
                      filterSupportedOutputSelections base selection
                        (zk_version zksolc)) <$> outputSelection before)
                  (others before))))
      (match outputSelection before with
       | Some _ => Ok tt
       | None => Err TypeError
       end).
Proof.
  simpl. unfold updateCompilerConf.
  destruct (getVersionComponents (version compiler)) as [[major minor] patch].
  destruct (zk_metadata (zk_settings zksolc)) as [m|];
    destruct (settings compiler) as [[o md [selection|] ot]|]; done.
Qed.

Lemma updateCompilerConf_warnings compiler compiler' zksolc :
  version compiler' = version compiler →
  warnings (updateCompilerConf base compiler' zksolc)
  = warnings (updateCompilerConf base compiler zksolc).
Proof.
  intros Hv. unfold updateCompilerConf. rewrite Hv.
  destruct (getVersionComponents (version compiler)) as [[major minor] patch].
  destruct (zk_metadata (zk_settings zksolc)) as [m|];
    destruct (settings compiler) as [[o md [selection|] ot]|];
    destruct (settings compiler') as [[o' md' [selection'|] ot']|]; done.
Qed.

(** X6: after [updateCompilerConf] the compiler keeps its version and its
    other settings, its optimizer settings are those of zksolc (empty when
    zksolc has none), and its metadata settings are those of zksolc or are
    absent: the ones solc had never survive. With an output selection the
    call succeeds and leaves it filtered for the zksolc version; without
    one the call throws, the other settings already replaced. *)
Theorem X6_conf_takes_zksolc_settings compiler zksolc :
  let before := default (mkSolcSettings None None None ∅) (settings compiler) in
  let result := updateCompilerConf base compiler zksolc in
  version (compiler_after result) = version compiler
  ∧ ∃ after,
      settings (compiler_after result) = Some after
      ∧ optimizer after = Some (default ∅ (zk_optimizer (zk_settings zksolc)))
      ∧ metadata after = zk_metadata (zk_settings zksolc)
      ∧ others after = others before
      ∧ match outputSelection before with
        | Some selection =>
            outcome result = Ok tt
            ∧ outputSelection after
              = Some (filterSupportedOutputSelections base selection
                        (zk_version zksolc))
        | None => outcome result = Err TypeError ∧ outputSelection after = None
        end.
Proof.
  simpl. unfold updateCompilerConf.
  destruct (getVersionComponents (version compiler)) as [[major minor] patch].
  destruct (zk_metadata (zk_settings zksolc)) as [m|]; simpl;
    destruct (outputSelection _) as [selection|]; simpl;
    (split; [done|]); eexists; by split_and!.
Qed.

(** X7: [updateCompilerConf] is idempotent: run again on the configuration
    it left, with the same zksolc configuration, it leaves the same
    configuration, ends the same way and warns the same. *)
Theorem X7_conf_idempotent compiler zksolc :
  updateCompilerConf base
    (compiler_after (updateCompilerConf base compiler zksolc)) zksolc
  = updateCompilerConf base compiler zksolc.
Proof.
  pose proof (updateCompilerConf_eq compiler zksolc) as Heq. simpl in Heq.
  pose proof (f_equal compiler_after Heq) as Hc. simpl in Hc.
  etrans; [|symmetry; exact Heq].
  rewrite updateCompilerConf_eq. simpl.
  rewrite (updateCompilerConf_warnings compiler) by by rewrite Hc.
  rewrite Hc. simpl.
  destruct (outputSelection _) as [selection|]; simpl; [|done].
  by rewrite filter_twice.
Qed.
End ConfProofs.


(** ** [zeroxlify] *)

Lemma lower_ascii_idemp c : lower_ascii (lower_ascii c) = lower_ascii c.
Proof. destruct c as [[] [] [] [] [] [] [] []]; reflexivity. Qed.

Lemma lower_ascii_is_ascii c :
  (N_of_ascii c <? 128)%N = true → (N_of_ascii (lower_ascii c) <? 128)%N = true.
Proof. destruct c as [[] [] [] [] [] [] [] []]; intros; done. Qed.

Lemma toLowerCase_idemp s : toLowerCase (toLowerCase s) = toLowerCase s.
Proof.
  induction s as [|c s IH]; simpl; [done|]. by rewrite lower_ascii_idemp, IH.
Qed.

Lemma toLowerCase_is_ascii s :
  is_ascii s = true → is_ascii (toLowerCase s) = true.
Proof.
  induction s as [|c s IH]; simpl; [done|]. intros [Hc Hs]%andb_prop.
  by rewrite lower_ascii_is_ascii, IH.
Qed.

Lemma substring_0x rest :
  substring 0 2 (String "0" (String "x" rest)) = "0x".
Proof. simpl. by destruct rest. Qed.

Lemma prefix_0x rest :
  String.prefix "0x" (String "0" (String "x" rest)) = true.
Proof. apply prefix_correct. simpl. by destruct rest. Qed.

Lemma zeroxlify_cases hex :
  let low := toLowerCase hex in
  (∃ rest, low = String "0" (String "x" rest) ∧ zeroxlify hex = low)
  ∨ (substring 0 2 low ≠ "0x" ∧ zeroxlify hex = String "0" (String "x" low)).
Proof.
  simpl. unfold zeroxlify.
  destruct (String.eqb_spec (substring 0 2 (toLowerCase hex)) "0x") as [Heq|Hne].
  - left. destruct (toLowerCase hex) as [|a [|b rest]]; try done.
    simpl in Heq. injection Heq as -> ->. by exists rest.
  - by right.
Qed.

Lemma lower_ascii_is_0 a : Ascii.eqb (lower_ascii a) "0" = Ascii.eqb a "0".
Proof. by destruct a as [[] [] [] [] [] [] [] []]. Qed.

Lemma lower_ascii_is_x b :
  Ascii.eqb (lower_ascii b) "x" = Ascii.eqb b "x" || Ascii.eqb b "X".
Proof. by destruct b as [[] [] [] [] [] [] [] []]. Qed.

Lemma zeroxlify_without_0x hex :
  zeroxlify hex = "0x" +:+ toLowerCase (without_0x hex).
Proof.
  unfold zeroxlify. destruct hex as [|a [|b rest]];
    [done|simpl; by destruct (_ =? _)%char|].
  cbn [toLowerCase without_0x].
  replace (substring 0 2 _) with (String (lower_ascii a)
    (String (lower_ascii b) EmptyString))
    by (simpl; by destruct (toLowerCase rest)).
  cbn [String.eqb]. rewrite lower_ascii_is_0, lower_ascii_is_x.
  destruct (Ascii.eqb_spec a "0") as [->|_]; [|done].
  destruct (Ascii.eqb_spec b "x") as [->|_]; [done|].
  by destruct (Ascii.eqb_spec b "X") as [->|_].
Qed.

(** X8: on a string of ASCII characters, [zeroxlify] gives "0x" followed
    by the lower case of the text without its own "0x" or "0X", if it has
    one: a value that carries the prefix, in either case of the letter, is
    not prefixed again. The result therefore starts with "0x", is in lower
    case, and [zeroxlify] leaves it as it is. *)
Theorem X8_zeroxlify_prefixes_once (hex : string) :
  is_ascii hex = true →
  zeroxlify hex = "0x" +:+ toLowerCase (without_0x hex)
  ∧ String.prefix "0x" (zeroxlify hex) = true
  ∧ toLowerCase (zeroxlify hex) = zeroxlify hex
  ∧ is_ascii (zeroxlify hex) = true
  ∧ zeroxlify (zeroxlify hex) = zeroxlify hex.
Proof.
  intros Hascii. split; [apply zeroxlify_without_0x|].
  pose proof (toLowerCase_is_ascii hex Hascii) as Hlow.
  destruct (zeroxlify_cases hex) as [(rest & Hrest & ->)|(_ & ->)].
  - split_and!;
      [rewrite Hrest; apply prefix_0x
      |by rewrite toLowerCase_idemp|done|].
    unfold zeroxlify. by rewrite toLowerCase_idemp, Hrest, substring_0x.
  - split_and!;
      [apply prefix_0x|simpl; by rewrite toLowerCase_idemp|done|].
    unfold zeroxlify. simpl toLowerCase.
    by rewrite toLowerCase_idemp, substring_0x.
Qed.

Lemma X8_zeroxlify_prefixes_once_witness :
  zeroxlify "0XdeadBEEF" = "0xdeadbeef"
  ∧ zeroxlify "0xdeadBEEF" = "0xdeadbeef"
  ∧ zeroxlify "deadBEEF" = "0xdeadbeef"
  ∧ zeroxlify (zeroxlify "0XdeadBEEF") = zeroxlify "0XdeadBEEF".
Proof.
  split_and!.
  - exact (proj1 (X8_zeroxlify_prefixes_once "0XdeadBEEF" eq_refl)).
  - exact (proj1 (X8_zeroxlify_prefixes_once "0xdeadBEEF" eq_refl)).
  - exact (proj1 (X8_zeroxlify_prefixes_once "deadBEEF" eq_refl)).
  - apply (X8_zeroxlify_prefixes_once "0XdeadBEEF"). reflexivity.
Defined.

(** ** Missing libraries *)

Lemma set_add_elem x y s : x ∈ set_add y s ↔ x ∈ s ∨ x = y.
Proof.
  unfold set_add. case_decide as Hy.
  - split; [auto|]. intros [?| ->]; done.
  - rewrite elem_of_app, list_elem_of_singleton. done.
Qed.

Lemma set_add_NoDup y s : NoDup s → NoDup (set_add y s).
Proof.
  intros Hs. unfold set_add. case_decide as Hy; [done|].
  apply NoDup_app. split_and!; [done| |apply NoDup_singleton].
  intros x Hx ->%list_elem_of_singleton. done.
Qed.

Lemma add_all_spec libraries s :
  let r := foldl (λ set library, set_add library set) s libraries in
  (∀ x, x ∈ r ↔ x ∈ s ∨ x ∈ libraries) ∧ (NoDup s → NoDup r).
Proof.
  simpl. revert s. induction libraries as [|l libraries IH]; intros s; simpl.
  - split; [|done]. intros x. rewrite elem_of_nil. tauto.
  - destruct (IH (set_add l s)) as [Hin Hnd]. split.
    + intros x. rewrite Hin, set_add_elem, elem_of_cons. tauto.
    + intros Hs. by apply Hnd, set_add_NoDup.
Qed.

Lemma contracts_fold_spec (fileContracts : list (string * Contract)) s :
  let r :=
    foldl
      (λ missingLibraries '(contractName, contract),
         if String.eqb contractName EmptyString then missingLibraries
         else
           match contract_missingLibraries contract with
           | Some libraries =>
               if (0 <? length libraries)%nat
               then foldl (λ set library, set_add library set)
                      missingLibraries libraries
               else missingLibraries
           | None => missingLibraries
           end)
      s fileContracts in
  (∀ x, x ∈ r ↔ x ∈ s ∨ ∃ c, c ∈ fileContracts ∧ adds_of_contract c x)
  ∧ (NoDup s → NoDup r).
Proof.
  simpl. revert s.
  induction fileContracts as [|[name contract] rest IH]; intros s; simpl.
  - split; [|done]. intros x. split; [auto|].
    intros [?|(c & Hc & _)]; [done|]. by apply elem_of_nil in Hc.
  - match goal with |- context [foldl _ ?s' rest] =>
      destruct (IH s') as [Hin Hnd];
      assert ((∀ x, x ∈ s' ↔ x ∈ s ∨ adds_of_contract (name, contract) x)
              ∧ (NoDup s → NoDup s')) as [Hs' Hnd']
    end.
    { unfold adds_of_contract. simpl.
      destruct (String.eqb_spec name EmptyString) as [->|Hname].
      { split; [|done]. intros x. split; [auto|]. intros [?|[? _]]; done. }
      destruct (contract_missingLibraries contract) as [libraries|].
      - destruct libraries as [|l libraries].
        + simpl. split; [|done]. intros x. split; [auto|].
          intros [?|(_ & ? & [= <-] & Hx)]; [done|].
          by apply elem_of_nil in Hx.
        + change (0 <? length (l :: libraries))%nat with true. simpl.
          destruct (add_all_spec (l :: libraries) s) as [Ha Hb]. simpl in *.
          split; [|done]. intros x. rewrite Ha. split.
          * intros [?|?]; [auto|]. right. split; [done|]. eauto.
          * intros [?|(_ & ? & [= <-] & Hx)]; auto.
      - split; [|done]. intros x. split; [auto|].
        intros [?|(_ & ? & [=] & _)]; done. }
    split; [|by auto]. intros x. rewrite Hin, Hs'. split.
    + intros [[?|?]|(c & Hc & Hx)]; [auto| |].
      * right. exists (name, contract). split; [left|done].
      * right. exists c. split; [by right|done].
    + intros [?|(c & Hc & Hx)]; [auto|].
      apply elem_of_cons in Hc as [->|Hc]; [auto|]. right. eauto.
Qed.

Lemma files_fold_spec (files : list (string * list (string * Contract))) s :
  let r :=
    foldl
      (λ missingLibraries '(filePath, fileContracts),
         if String.eqb filePath EmptyString then missingLibraries
         else
           foldl
             (λ missingLibraries '(contractName, contract),
                if String.eqb contractName EmptyString then missingLibraries
                else
                  match contract_missingLibraries contract with
                  | Some libraries =>
                      if (0 <? length libraries)%nat
                      then foldl (λ set library, set_add library set)
                             missingLibraries libraries
                      else missingLibraries
                  | None => missingLibraries
                  end)
             missingLibraries fileContracts)
      s files in
  (∀ x, x ∈ r ↔ x ∈ s ∨ ∃ f, f ∈ files ∧ adds_of_file f x)
  ∧ (NoDup s → NoDup r).
Proof.
  simpl. revert s. induction files as [|[path cs] rest IH]; intros s; simpl.
  - split; [|done]. intros x. split; [auto|].
    intros [?|(c & Hc & _)]; [done|]. by apply elem_of_nil in Hc.
  - match goal with |- context [foldl _ ?s' rest] =>
      destruct (IH s') as [Hin Hnd];
      assert ((∀ x, x ∈ s' ↔ x ∈ s ∨ adds_of_file (path, cs) x)
              ∧ (NoDup s → NoDup s')) as [Hs' Hnd']
    end.
    { unfold adds_of_file. simpl.
      destruct (String.eqb_spec path EmptyString) as [->|Hpath].
      { split; [|done]. intros x. split; [auto|]. intros [?|[? _]]; done. }
      destruct (contracts_fold_spec cs s) as [Ha Hb]. simpl in *.
      split; [|done]. intros x. rewrite Ha. split.
      - intros [?|?]; auto.
      - intros [?|[_ ?]]; auto. }
    split; [|by auto]. intros x. rewrite Hin, Hs'. split.
    + intros [[?|?]|(f & Hf & Hx)]; [auto| |].
      * right. exists (path, cs). split; [left|done].
      * right. exists f. split; [by right|done].
    + intros [?|(f & Hf & Hx)]; [auto|].
      apply elem_of_cons in Hf as [->|Hf]; [auto|]. right. eauto.
Qed.


(** X9: the set [findMissingLibraries] returns has no duplicates, and a
    library is in it exactly when some contract of the output, under a file
    path and a contract name that are not empty, lists it among its missing
    libraries; with no [contracts] in the output the set is empty. *)
Theorem X9_found_libraries (zkSolcOutput : ZkSolcOutput) (x : string) :
  let found := findMissingLibraries zkSolcOutput in
  NoDup found
  ∧ (x ∈ found
     ↔ ∃ files file, contracts zkSolcOutput = Some files
                     ∧ file ∈ files ∧ adds_of_file file x)
  ∧ (contracts zkSolcOutput = None → found = []).
Proof.
  simpl. unfold findMissingLibraries.
  destruct (files_fold_spec (default [] (contracts zkSolcOutput)) [])
    as [Hin Hnd]. simpl in *.
  split_and!.
  - apply Hnd. constructor.
  - rewrite Hin. split.
    + intros [Hx|(f & Hf & Hx)]; [by apply elem_of_nil in Hx|].
      destruct (contracts zkSolcOutput) as [files|]; simpl in *;
        [by eauto|by apply elem_of_nil in Hf].
    + intros (files & f & -> & Hf & Hx). simpl. eauto.
  - by intros ->.
Qed.

Lemma X9_found_libraries_witness :
  "contracts/M.sol:M" ∈ findMissingLibraries sample_output.
Proof.
  apply (X9_found_libraries sample_output "contracts/M.sol:M").
  exists [("contracts/A.sol", [("A", mkContract (Some ["contracts/L.sol:L"]))]);
          ("contracts/L.sol", [("L", mkContract (Some ["contracts/M.sol:M"]))])],
    ("contracts/L.sol", [("L", mkContract (Some ["contracts/M.sol:M"]))]).
  split_and!; [reflexivity|right; left| ].
  split; [discriminate|].
  exists ("L", mkContract (Some ["contracts/M.sol:M"])).
  split; [left|]. split; [discriminate|].
  exists ["contracts/M.sol:M"]. split; [reflexivity|left].
Defined.

(** ** The dependency array *)

Lemma dependencyOf_total (zkSolcOutput : ZkSolcOutput) files library :
  contracts zkSolcOutput = Some files →
  ∃ added, dependencyOf zkSolcOutput library = Ok added ∧ length added ≤ 1.
Proof.
  intros Hc. unfold dependencyOf. rewrite Hc.
  destruct (entries_lookup _ files) as [fileContracts|]; [|by eauto].
  destruct (entries_lookup _ fileContracts) as [contract|]; [|by eauto].
  destruct (contract_missingLibraries contract); by eauto.
Qed.

Lemma dependencies_fold (zkSolcOutput : ZkSolcOutput) files libs pushed :
  contracts zkSolcOutput = Some files →
  ∃ added,
    foldl (λ dependencyMap library,
             pushed ← dependencyMap;
             added ← dependencyOf zkSolcOutput library;
             Ok (pushed ++ added))
      (Ok pushed) libs = Ok (pushed ++ added)
    ∧ length added ≤ length libs
    ∧ ∀ d, d ∈ added
           ↔ ∃ library, library ∈ libs
                        ∧ dependencyOf zkSolcOutput library = Ok [d].
Proof.
  intros Hc. revert pushed. induction libs as [|l libs IH]; intros pushed.
  - exists []. simpl. rewrite app_nil_r. split_and!; [done..|].
    intros d. split; [by intros ?%elem_of_nil|].
    by intros (? & ?%elem_of_nil & _).
  - destruct (dependencyOf_total zkSolcOutput files l Hc) as (a & Ha & Hlen).
    cbn [foldl].
    assert ((Ok pushed ≫= λ pushed,
               added ← dependencyOf zkSolcOutput l; Ok (pushed ++ added))
            = Ok (pushed ++ a)) as ->
      by (unfold mbind, result_bind; by rewrite Ha).
    destruct (IH (pushed ++ a)) as (added & -> & Hl & Hin).
    exists (a ++ added). rewrite (assoc_L (++)), length_app.
    split_and!; [done|simpl; lia|]. intros d. rewrite elem_of_app, Hin. split.
    + intros [Hd|(library & Hlib & Hdep)].
      * exists l. split; [left|]. destruct a as [|d' [|??]]; simpl in *;
          [by apply elem_of_nil in Hd| |lia].
        by apply list_elem_of_singleton in Hd as ->.
      * exists library. split; [by right|done].
    + intros (library & [->|Hlib]%elem_of_cons & Hdep).
      * left. rewrite Hdep in Ha. injection Ha as <-. left.
      * right. eauto.
Qed.

Lemma split_no_sep sep s : occurrences sep s = 0 → split sep s = [s].
Proof.
  intros Hs. destruct (split_app_head sep s "" Hs) as (part & parts & Hp & He).
  rewrite string_app_nil_r in He. rewrite He. simpl in Hp.
  injection Hp as <- <-. by rewrite string_app_nil_r.
Qed.

Lemma dependencyOf_qualified (zkSolcOutput : ZkSolcOutput) files path name
    fileContracts contract libraries :
  contracts zkSolcOutput = Some files →
  occurrences ":"%char path = 0 → occurrences ":"%char name = 0 →
  entries_lookup path files = Some fileContracts →
  entries_lookup name fileContracts = Some contract →
  contract_missingLibraries contract = Some libraries →
  dependencyOf zkSolcOutput (path +:+ ":" +:+ name)
  = Ok [mkDependency (Some name) path libraries].
Proof.
  intros Hc Hpath Hname Hf Hn Hl. unfold dependencyOf.
  change (":" +:+ name) with (String ":"%char name).
  rewrite split_app_sep, (split_no_sep _ name) by done. simpl.
  by rewrite Hc, Hf, Hn, Hl.
Qed.

(** X10: with [contracts] in the output, [mapMissingLibraryDependencies]
    returns at most one entry per library of the set; each entry names a
    contract the output has under the entry's path (under the key
    "undefined" when the library had no colon), with that contract's
    missing libraries; and for a library [path:name] of the set whose two
    parts hold no further colon, the output's contract [name] of [path], if
    it has a missing-libraries field, has its entry in the array. *)
Theorem X10_dependencies_of_the_set (zkSolcOutput : ZkSolcOutput) files libs :
  contracts zkSolcOutput = Some files →
  ∃ deps,
    mapMissingLibraryDependencies zkSolcOutput libs = Ok deps
    ∧ length deps ≤ length libs
    ∧ (∀ d, d ∈ deps →
         ∃ fileContracts contract,
           entries_lookup (dep_contractPath d) files = Some fileContracts
           ∧ entries_lookup (default "undefined" (dep_contractName d))
               fileContracts = Some contract
           ∧ contract_missingLibraries contract
             = Some (dep_missingLibraries d))
    ∧ (∀ path name fileContracts contract libraries,
         path +:+ ":" +:+ name ∈ libs →
         occurrences ":"%char path = 0 → occurrences ":"%char name = 0 →
         entries_lookup path files = Some fileContracts →
         entries_lookup name fileContracts = Some contract →
         contract_missingLibraries contract = Some libraries →
         mkDependency (Some name) path libraries ∈ deps).
Proof.
  intros Hc. unfold mapMissingLibraryDependencies.
  destruct (dependencies_fold zkSolcOutput files libs [] Hc)
    as (deps & Hfold & Hlen & Hin).
  exists deps. split_and!; [done|done| |].
  - intros d (library & _ & Hdep)%Hin. unfold dependencyOf in Hdep.
    rewrite Hc in Hdep.
    destruct (entries_lookup _ files) as [fileContracts|] eqn:Hf; [|done].
    destruct (entries_lookup _ fileContracts) as [contract|] eqn:Hn; [|done].
    destruct (contract_missingLibraries contract) as [libraries|] eqn:Hl;
      [|done].
    injection Hdep as <-. simpl. eauto.
  - intros path name fileContracts contract libraries Hlib Hp Hn Hf Hname Hl.
    apply Hin. exists (path +:+ ":" +:+ name). split; [done|].
    by eapply dependencyOf_qualified.
Qed.

(** X11: without [contracts] in the output, mapping a set that is not
    empty throws, while mapping the empty set returns the empty array; so
    mapping the set that [findMissingLibraries] found in the same output
    never throws. *)
Theorem X11_dependencies_of_found_never_throw (zkSolcOutput : ZkSolcOutput) :
  (∀ library libs,
     contracts zkSolcOutput = None →
     mapMissingLibraryDependencies zkSolcOutput (library :: libs)
     = Err TypeError)
  ∧ mapMissingLibraryDependencies zkSolcOutput [] = Ok []
  ∧ is_ok (mapMissingLibraryDependencies zkSolcOutput
             (findMissingLibraries zkSolcOutput)) = true.
Proof.
  split_and!.
  - intros library libs Hc. unfold mapMissingLibraryDependencies. simpl.
    unfold dependencyOf at 2. rewrite Hc. simpl.
    clear. induction libs as [|l libs IH]; simpl; done.
  - done.
  - destruct (contracts zkSolcOutput) as [files|] eqn:Hc.
    + unfold mapMissingLibraryDependencies.
      destruct (dependencies_fold zkSolcOutput files
                  (findMissingLibraries zkSolcOutput) [] Hc)
        as (deps & -> & _). done.
    + unfold findMissingLibraries. by rewrite Hc.
Qed.


Lemma X10_dependencies_of_the_set_witness :
  ∃ deps,
    mapMissingLibraryDependencies sample_output
      (findMissingLibraries sample_output) = Ok deps
    ∧ mkDependency (Some "L") "contracts/L.sol" ["contracts/M.sol:M"] ∈ deps.
Proof.
  destruct (X10_dependencies_of_the_set sample_output _
              (findMissingLibraries sample_output) eq_refl)
    as (deps & Hdeps & _ & _ & Hin).
  exists deps. split; [exact Hdeps|].
  apply (Hin "contracts/L.sol" "L" [("L", mkContract (Some ["contracts/M.sol:M"]))]
           (mkContract (Some ["contracts/M.sol:M"])));
    try reflexivity.
  vm_compute. apply list_elem_of_here.
Defined.

Lemma X11_dependencies_of_found_never_throw_witness :
  mapMissingLibraryDependencies (mkZkSolcOutput None) ["contracts/L.sol:L"]
  = Err TypeError.
Proof.
  apply (X11_dependencies_of_found_never_throw (mkZkSolcOutput None)).
  reflexivity.
Defined.

(** ** [getLatestRelease] *)

Lemma prefix_app p t : String.prefix p (p +:+ t) = true.
Proof.
  induction p as [|c p IH]; simpl; [by destruct t|].
  destruct (ascii_dec c c); [done|congruence].
Qed.

Lemma prefix_split p s :
  String.prefix p s = true → s = p +:+ substring_from (String.length p) s.
Proof.
  revert s. induction p as [|c p IH]; intros s; simpl; [done|].
  destruct s as [|c' s]; simpl; [done|].
  destruct (ascii_dec c c') as [->|]; [|done].
  intros Hp. by rewrite <- IH.
Qed.

Lemma substring_from_app p t : substring_from (String.length p) (p +:+ t) = t.
Proof. induction p as [|c p IH]; simpl; done. Qed.

Section ReleaseProofs.
Context (request : string → Z → string → result Error Response)
        (DEFAULT_TIMEOUT : Z).

(** X12: [getLatestRelease] returns a tag exactly when the request is
    answered with a status from 300 to 399 and a [location] header that is
    one string, the address of the repository's release tags followed by
    the tag; the tag is what follows that prefix. A failure of the request
    is passed on as it is. An answer with a status from 300 to 399 whose
    [location] header is repeated, and so is an array, ends in a TypeError;
    every other answer that gives no tag is refused with the plugin's
    error. *)
Theorem X12_latest_release_is_redirect_tag
    (owner repo userAgent : string) (timeout : option Z) (tag : string) :
  let asked :=
    request (latestUrl owner repo) (default DEFAULT_TIMEOUT timeout) userAgent in
  let result :=
    getLatestRelease request DEFAULT_TIMEOUT owner repo userAgent timeout in
  (result = Ok tag
   ↔ ∃ response,
       asked = Ok response
       ∧ (300 ≤ statusCode response < 400)%Z
       ∧ location response
         = Some (Single (redirectUrlPattern owner repo +:+ tag)))
  ∧ (∀ e, asked = Err e → result = Err e)
  ∧ (∀ response values,
       asked = Ok response → (300 ≤ statusCode response < 400)%Z →
       location response = Some (Repeated values) →
       result = Err TypeError)
  ∧ (∀ response,
       asked = Ok response → is_ok result = false →
       (¬ (300 ≤ statusCode response < 400)%Z
        ∨ ∀ values, location response ≠ Some (Repeated values)) →
       ∃ message, result = Err (ZkSyncSolcPluginError message)).
Proof.
  cbv zeta. unfold getLatestRelease, mbind, result_bind.
  assert (∀ t, redirectUrlPattern owner repo +:+ t ≠ EmptyString) as Hne
    by (intros t; unfold redirectUrlPattern; simpl; discriminate).
  generalize dependent (redirectUrlPattern owner repo). intros pattern Hne.
  generalize (latestUrl owner repo). intros url.
  destruct (request _ _ _) as [response|e].
  2: { split_and!;
         [split; [intros [=]|intros (? & [=] & _)]
         |by intros ? [= <-]|intros ? ? [=]|intros ? [=]]. }
  destruct (Z.leb_spec 300 (statusCode response)) as [Hlo|Hlo];
    destruct (Z.ltb_spec (statusCode response) 400) as [Hhi|Hhi]; simpl.
  2-4: split_and!;
    [split; [intros [=]|intros (? & [= <-] & ? & _); lia]
    |intros ? [=]|intros ? ? [= <-] ?; lia|intros; by eauto].
  destruct (location response) as [[loc|values]|] eqn:Hloc.
  3: { split_and!;
         [split; [intros [=]|intros (? & [= <-] & _ & Hl); congruence]
         |intros ? [=]|intros ? ? [= <-] _; congruence|intros; by eauto]. }
  2: { split_and!;
         [split; [intros [=]|intros (? & [= <-] & _ & Hl); congruence]
         |intros ? [=]|done|].
       intros ? [= <-] _ [Hstatus|Hsingle]; [lia|].
       by destruct (Hsingle values). }
  destruct (String.eqb_spec loc EmptyString) as [->|Hloc'].
  { split_and!;
      [split; [intros [=]|]|intros ? [=]
      |intros ? ? [= <-] _; congruence|intros; by eauto].
    intros (? & [= <-] & _ & Hl). rewrite Hloc in Hl.
    injection Hl as Hl. by destruct (Hne tag). }
  destruct (String.prefix pattern loc) eqn:Hp.
  - split_and!;
      [split|intros ? [=]|intros ? ? [= <-] _; congruence|intros ? _ [=]].
    + intros [= <-]. exists response. split; [done|]. split; [lia|].
      rewrite Hloc. do 2 f_equal. by apply prefix_split.
    + intros (? & [= <-] & _ & Hl). rewrite Hloc in Hl. injection Hl as ->.
      by rewrite substring_from_app.
  - split_and!;
      [split; [intros [=]|]|intros ? [=]
      |intros ? ? [= <-] _; congruence|intros; by eauto].
    intros (? & [= <-] & _ & Hl). rewrite Hloc in Hl. injection Hl as ->.
    by rewrite prefix_app in Hp.
Qed.
End ReleaseProofs.

Lemma X12_latest_release_is_redirect_tag_witness :
  getLatestRelease
    (λ _ _ _, Ok (mkResponse 302 (Some (Single
        "https://github.com/matter-labs/zksolc-bin/releases/tag/v1.4.0"))))
    30000 "matter-labs" "zksolc-bin" "hardhat" None
  = Ok "1.4.0"
  ∧ getLatestRelease
      (λ _ _ _, Ok (mkResponse 302 (Some (Repeated
          ["https://github.com/matter-labs/zksolc-bin/releases/tag/v1.4.0";
           "https://github.com/matter-labs/zksolc-bin/releases/tag/v1.4.1"]))))
      30000 "matter-labs" "zksolc-bin" "hardhat" None
    = Err TypeError.
Proof.
  split.
  - apply (X12_latest_release_is_redirect_tag
             (λ _ _ _, Ok (mkResponse 302 (Some (Single
                "https://github.com/matter-labs/zksolc-bin/releases/tag/v1.4.0"))))
             30000 "matter-labs" "zksolc-bin" "hardhat" None "1.4.0").
    eexists. split_and!; [reflexivity|simpl; lia|simpl; lia|reflexivity].
  - eapply (X12_latest_release_is_redirect_tag
              (λ _ _ _, Ok (mkResponse 302 (Some (Repeated
                 ["https://github.com/matter-labs/zksolc-bin/releases/tag/v1.4.0";
                  "https://github.com/matter-labs/zksolc-bin/releases/tag/v1.4.1"]))))
              30000 "matter-labs" "zksolc-bin" "hardhat" None EmptyString);
      [reflexivity|simpl; lia|reflexivity].
Defined.

End UtilsProofs.

(** * The balance changes and their assertion: further proofs *)

Section MatcherProofs.
Import Balance Matcher.
Context `{Chain}.
Context (getAddresses : list Account → result Error (list string))
        (ordinal : nat → string) (number_toString : Z → string).

Local Open Scope Z_scope.

(** ** [getBalanceChanges] *)

Lemma changes_length transaction accounts options overrides deltas :
  getBalanceChanges transaction accounts options overrides = Ok deltas →
  length deltas = length accounts.
Proof.
  unfold getBalanceChanges.
  destruct transaction as [txResponse|e]; simpl; [|done].
  destruct (wait txResponse) as [txReceipt|e]; simpl; [|done].
  destruct (getBalances accounts (blockNumber txReceipt)) as [afters|e] eqn:Ha;
    simpl; [|done].
  destruct (getBalances accounts (blockNumber txReceipt - 1)) as [befores|e];
    simpl; [|done].
  destruct (getTxFees accounts txResponse options overrides) as [fees|e];
    simpl; [|done].
  intros Hd. apply mapM_Ok_Forall2, Forall2_length in Hd.
  apply mapM_Ok_Forall2, Forall2_length in Ha.
  rewrite length_imap in Hd. lia.
Qed.

(** X13: [getBalanceChanges] returns changes only when everything it
    awaits resolved: the transaction, its receipt, every balance read at
    both heights and every fee; it then returns one change per account. A
    single failed read leaves no partial result. *)
Theorem X13_changes_need_every_read
    transaction accounts options overrides deltas :
  getBalanceChanges transaction accounts options overrides = Ok deltas →
  ∃ txResponse txReceipt afters befores fees,
    transaction = Ok txResponse
    ∧ wait txResponse = Ok txReceipt
    ∧ getBalances accounts (blockNumber txReceipt) = Ok afters
    ∧ getBalances accounts (blockNumber txReceipt - 1) = Ok befores
    ∧ getTxFees accounts txResponse options overrides = Ok fees
    ∧ length deltas = length accounts.
Proof.
  unfold getBalanceChanges.
  destruct transaction as [txResponse|e]; simpl; [|done].
  destruct (wait txResponse) as [txReceipt|e] eqn:Hw; simpl; [|done].
  destruct (getBalances accounts (blockNumber txReceipt)) as [afters|e] eqn:Ha;
    simpl; [|done].
  destruct (getBalances accounts (blockNumber txReceipt - 1)) as [befores|e]
    eqn:Hb; simpl; [|done].
  destruct (getTxFees accounts txResponse options overrides) as [fees|e]
    eqn:Hf; simpl; [|done].
  intros Hd. exists txResponse, txReceipt, afters, befores, fees.
  split_and!; [done..|].
  apply mapM_Ok_Forall2, Forall2_length in Hd.
  apply mapM_Ok_Forall2, Forall2_length in Ha.
  rewrite length_imap in Hd. lia.
Qed.

Lemma mapM_ext_in {A B} (f g : A → result Error B) (l : list A) :
  (∀ x, x ∈ l → f x = g x) → mapM f l = mapM g l.
Proof.
  induction l as [|x l IH]; intros Hfg; simpl; [done|].
  rewrite (Hfg x) by left. rewrite IH; [done|].
  intros y Hy. apply Hfg. by right.
Qed.

(** X14: the overrides reach the result only through the sender's fee:
    with [includeFee: true], or when none of the accounts resolves to the
    sender's address, any two overrides give the same result. *)
Theorem X14_overrides_only_reach_sender_fee
    txResponse accounts options overrides overrides' :
  includeFee_true options = true
  ∨ (∀ account, account ∈ accounts →
       getAddressOf account ≠ Ok (from txResponse)) →
  getBalanceChanges (Ok txResponse) accounts options overrides
  = getBalanceChanges (Ok txResponse) accounts options overrides'.
Proof.
  intros Hcase.
  assert (getTxFees accounts txResponse options overrides
          = getTxFees accounts txResponse options overrides') as Hfees.
  { apply mapM_ext_in. intros account Hin. unfold txFeeOf.
    destruct Hcase as [->|Hnot]; [done|].
    destruct (includeFee_true options); simpl; [done|].
    unfold mbind, result_bind. specialize (Hnot account Hin).
    destruct (getAddressOf account) as [address|e]; [|done].
    destruct (String.eqb_spec address (from txResponse)) as [->|]; done. }
  unfold getBalanceChanges. simpl. by rewrite Hfees.
Qed.


(** ** The comparison of the assertion *)

Lemma every_from_true (i : nat) actualChanges balanceChanges :
  every_from i actualChanges balanceChanges = Ok true
  ↔ ∀ (k : nat) change, actualChanges !! k = Some change →
      toBigInt_at balanceChanges (i + k) = Ok change.
Proof.
  revert i. induction actualChanges as [|change rest IH]; intros i; simpl.
  - split; [|done]. intros _ k c. by rewrite lookup_nil.
  - destruct (toBigInt_at balanceChanges i) as [expected|e] eqn:Hi.
    + destruct (Z.eqb_spec change expected) as [->|Hne].
      * rewrite IH. split.
        -- intros Hrest [|k] c; simpl.
           ++ intros [= <-]. by rewrite Nat.add_0_r.
           ++ intros Hk. rewrite Nat.add_succ_r. by apply Hrest.
        -- intros Hall k c Hk. specialize (Hall (S k) c Hk).
           by rewrite Nat.add_succ_r in Hall.
      * split; [done|]. intros Hall. specialize (Hall 0%nat change eq_refl).
        rewrite Nat.add_0_r in Hall. congruence.
    + split; [done|]. intros Hall. specialize (Hall 0%nat change eq_refl).
      rewrite Nat.add_0_r in Hall. congruence.
Qed.

Lemma every_from_false (i : nat) actualChanges balanceChanges :
  every_from i actualChanges balanceChanges = Ok false
  ↔ ∃ (k : nat) change expected,
      actualChanges !! k = Some change
      ∧ toBigInt_at balanceChanges (i + k) = Ok expected
      ∧ expected ≠ change
      ∧ ∀ (j : nat) c, (j < k)%nat → actualChanges !! j = Some c →
          toBigInt_at balanceChanges (i + j) = Ok c.
Proof.
  revert i. induction actualChanges as [|change rest IH]; intros i; simpl.
  - split; [done|]. intros (k & c & ? & Hk & _). by rewrite lookup_nil in Hk.
  - destruct (toBigInt_at balanceChanges i) as [expected|e] eqn:Hi.
    + destruct (Z.eqb_spec change expected) as [->|Hne].
      * rewrite IH. split.
        -- intros (k & c & x & Hk & Hx & Hne & Hbefore).
           exists (S k), c, x. rewrite Nat.add_succ_r.
           split_and!; [done..|].
           intros [|j] c' Hj; simpl.
           ++ intros [= <-]. by rewrite Nat.add_0_r.
           ++ intros Hc'. rewrite Nat.add_succ_r. apply Hbefore; [lia|done].
        -- intros ([|k] & c & x & Hk & Hx & Hne & Hbefore); simpl in *.
           { rewrite Nat.add_0_r in Hx. congruence. }
           exists k, c, x. rewrite Nat.add_succ_r in Hx.
           split_and!; [done..|].
           intros j c' Hj Hc'. specialize (Hbefore (S j) c').
           rewrite Nat.add_succ_r in Hbefore. apply Hbefore; [lia|done].
      * split; [|done]. intros _. exists 0%nat, change, expected.
        rewrite Nat.add_0_r. split_and!; [done|done|congruence|].
        intros j c Hj. lia.
    + split; [done|].
      intros ([|k] & c & x & Hk & Hx & Hne & Hbefore); simpl in *.
      * rewrite Nat.add_0_r in Hx. congruence.
      * specialize (Hbefore 0%nat change). rewrite Nat.add_0_r in Hbefore.
        rewrite Hbefore in Hi by (done || lia). done.
Qed.

Lemma check_passes negated balanceChanges actualChanges accountAddresses :
  checkBalanceChanges ordinal number_toString negated balanceChanges
    actualChanges accountAddresses = Ok tt
  ↔ every_from 0 actualChanges balanceChanges = Ok (negb negated).
Proof.
  unfold checkBalanceChanges, buildAssert.
  destruct (every_from 0 actualChanges balanceChanges) as [[] | e]; simpl.
  - destruct negated; simpl; [|done].
    destruct (lines_from _ _ _ _ _ _ _); simpl; split; done.
  - destruct negated; simpl; [done|].
    destruct (lines_from _ _ _ _ _ _ _); simpl; split; done.
  - split; done.
Qed.

Lemma toBigInt_at_Ok balanceChanges (i : nat) change :
  toBigInt_at balanceChanges i = Ok change
  ↔ ∃ expected, balanceChanges !! i = Some expected
                ∧ toBigInt expected = Ok change.
Proof.
  unfold toBigInt_at. destruct (balanceChanges !! i) as [v|].
  - split; [by eauto|]. by intros (? & [= <-] & ?).
  - split; [done|]. by intros (? & [=] & _).
Qed.

(** X15: once the changes and the addresses are obtained, the assertion
    passes exactly when every account's change equals the expected value at
    the same position, converted by [toBigInt]. *)
Theorem X15_assertion_passes_when_all_equal
    subject accounts balanceChanges options actualChanges accountAddresses :
  getBalanceChanges subject accounts (options ≫= balanceChangeOptions)
    (options ≫= overrides) = Ok actualChanges →
  getAddresses accounts = Ok accountAddresses →
  changeEtherBalances getAddresses ordinal number_toString false subject
    accounts balanceChanges options = Ok tt
  ↔ ∀ (i : nat) change, actualChanges !! i = Some change →
      ∃ expected, balanceChanges !! i = Some expected
                  ∧ toBigInt expected = Ok change.
Proof.
  intros Hc Ha. unfold changeEtherBalances. rewrite Hc, Ha. simpl.
  rewrite check_passes, every_from_true. simpl.
  by setoid_rewrite toBigInt_at_Ok.
Qed.

(** X16: the negated assertion passes exactly when some account's change
    differs from its expected value while the changes before it equal
    theirs: one differing account is enough for [.not] to pass. *)
Theorem X16_negated_passes_on_first_difference
    subject accounts balanceChanges options actualChanges accountAddresses :
  getBalanceChanges subject accounts (options ≫= balanceChangeOptions)
    (options ≫= overrides) = Ok actualChanges →
  getAddresses accounts = Ok accountAddresses →
  changeEtherBalances getAddresses ordinal number_toString true subject
    accounts balanceChanges options = Ok tt
  ↔ ∃ (i : nat) change given expected,
      actualChanges !! i = Some change
      ∧ balanceChanges !! i = Some given
      ∧ toBigInt given = Ok expected
      ∧ expected ≠ change
      ∧ ∀ (j : nat) c, (j < i)%nat → actualChanges !! j = Some c →
          ∃ given', balanceChanges !! j = Some given'
                    ∧ toBigInt given' = Ok c.
Proof.
  intros Hc Ha. unfold changeEtherBalances. rewrite Hc, Ha. simpl.
  rewrite check_passes, every_from_false. simpl. split.
  - intros (i & change & expected & Hi & Hx & Hne & Hbefore).
    apply toBigInt_at_Ok in Hx as (given & Hg & Hx).
    exists i, change, given, expected. split_and!; [done..|].
    intros j c Hj Hcj. apply toBigInt_at_Ok. by apply Hbefore.
  - intros (i & change & given & expected & Hi & Hg & Hx & Hne & Hbefore).
    exists i, change, expected. split_and!; [done| |done|].
    + apply toBigInt_at_Ok. eauto.
    + intros j c Hj Hcj. apply toBigInt_at_Ok. by apply Hbefore.
Qed.


Lemma toBigInt_at_app balanceChanges extra (i : nat) :
  (i < length balanceChanges)%nat →
  toBigInt_at (balanceChanges ++ extra) i = toBigInt_at balanceChanges i.
Proof. intros Hi. unfold toBigInt_at. by rewrite lookup_app_l. Qed.

Lemma toString_at_app balanceChanges extra (i : nat) :
  (i < length balanceChanges)%nat →
  toString_at number_toString (balanceChanges ++ extra) i
  = toString_at number_toString balanceChanges i.
Proof. intros Hi. unfold toString_at. by rewrite lookup_app_l. Qed.

Lemma every_from_app (i : nat) actualChanges balanceChanges extra :
  (i + length actualChanges ≤ length balanceChanges)%nat →
  every_from i actualChanges (balanceChanges ++ extra)
  = every_from i actualChanges balanceChanges.
Proof.
  revert i. induction actualChanges as [|change rest IH]; intros i Hlen;
    simpl in *; [done|].
  rewrite toBigInt_at_app by lia.
  destruct (toBigInt_at balanceChanges i) as [expected|e]; [|done].
  destruct (change =? expected); [|done]. apply IH. lia.
Qed.

Lemma lines_from_app negatedMessage (i : nat) actualChanges balanceChanges
    extra accountAddresses :
  (i + length actualChanges ≤ length balanceChanges)%nat →
  lines_from ordinal number_toString negatedMessage i actualChanges
    (balanceChanges ++ extra) accountAddresses
  = lines_from ordinal number_toString negatedMessage i actualChanges
      balanceChanges accountAddresses.
Proof.
  revert i. induction actualChanges as [|change rest IH]; intros i Hlen;
    simpl in *; [done|].
  rewrite toBigInt_at_app, toString_at_app, IH by lia. done.
Qed.

(** X17: expected values beyond the number of accounts are never looked
    at: with at least one expected value per account, adding more of them
    changes nothing, for the assertion and for its negation. *)
Theorem X17_surplus_expected_values_ignored
    negated subject accounts balanceChanges extra options :
  (length accounts ≤ length balanceChanges)%nat →
  changeEtherBalances getAddresses ordinal number_toString negated subject
    accounts (balanceChanges ++ extra) options
  = changeEtherBalances getAddresses ordinal number_toString negated subject
      accounts balanceChanges options.
Proof.
  intros Hlen. unfold changeEtherBalances.
  destruct (getBalanceChanges subject accounts _ _) as [actualChanges|e] eqn:Hc;
    simpl; [|done].
  apply changes_length in Hc as Hl.
  destruct (getAddresses accounts) as [accountAddresses|e]; simpl; [|done].
  unfold checkBalanceChanges.
  by rewrite every_from_app, !lines_from_app by (simpl; lia).
Qed.

Lemma every_from_true_length (i : nat) actualChanges balanceChanges :
  every_from i actualChanges balanceChanges = Ok true →
  actualChanges = [] ∨ (i + length actualChanges ≤ length balanceChanges)%nat.
Proof.
  revert i. induction actualChanges as [|change rest IH]; intros i; simpl.
  - by left.
  - unfold toBigInt_at at 1.
    destruct (balanceChanges !! i) as [v|] eqn:Hv; [|done].
    apply lookup_lt_Some in Hv.
    destruct (toBigInt v) as [expected|e]; [|done].
    destruct (change =? expected); [|done].
    intros [->|?]%IH; right; simpl; lia.
Qed.

Lemma lines_from_length negatedMessage (i : nat) actualChanges balanceChanges
    accountAddresses lines :
  lines_from ordinal number_toString negatedMessage i actualChanges
    balanceChanges accountAddresses = Ok lines →
  actualChanges = [] ∨ (i + length actualChanges ≤ length balanceChanges)%nat.
Proof.
  revert i lines. induction actualChanges as [|change rest IH];
    intros i lines; simpl; [by left|].
  unfold mbind at 1, result_bind at 1. unfold toBigInt_at at 1.
  destruct (balanceChanges !! i) as [v|] eqn:Hv; [|done].
  apply lookup_lt_Some in Hv.
  destruct (toBigInt v) as [expected|e]; [|done].
  unfold mbind at 1, result_bind at 1.
  destruct (if bool_decide _ then _ else _) as [pushed|e]; [|done].
  unfold mbind at 1, result_bind at 1.
  destruct (lines_from _ _ _ _ rest _ _) as [ls|e] eqn:Hls; [|done].
  intros _. right. destruct (IH _ _ Hls) as [->|?]; simpl; lia.
Qed.

(** X18: with fewer expected values than accounts the assertion never
    passes and never fails as an assertion either: the missing value is a
    conversion error, which is what the caller receives; the negated
    assertion does not fail as an assertion in that case. *)
Theorem X18_missing_expected_value_is_an_error
    subject accounts balanceChanges options :
  (length balanceChanges < length accounts)%nat →
  (∃ e, changeEtherBalances getAddresses ordinal number_toString false subject
          accounts balanceChanges options = Err (Rejected e))
  ∧ ∀ message,
      changeEtherBalances getAddresses ordinal number_toString true subject
        accounts balanceChanges options ≠ Err (AssertionError message).
Proof.
  intros Hlen. unfold changeEtherBalances.
  destruct (getBalanceChanges subject accounts _ _) as [actualChanges|e] eqn:Hc;
    simpl; [|by eauto].
  apply changes_length in Hc as Hl.
  destruct (getAddresses accounts) as [accountAddresses|e]; simpl; [|by eauto].
  unfold checkBalanceChanges, buildAssert.
  destruct (every_from 0 actualChanges balanceChanges) as [[]|e] eqn:He; simpl.
  - apply every_from_true_length in He as [->|?]; simpl in *; lia.
  - split; [|done].
    destruct (lines_from _ _ false _ _ _ _) as [lines|e] eqn:Hlines; simpl;
      [|by eauto].
    apply lines_from_length in Hlines as [->|?]; simpl in *; lia.
  - split; [by eauto|done].
Qed.

End MatcherProofs.

(** ** The statements on the sample chain *)

Section MatcherSamples.
Import Balance Matcher.
Local Open Scope Z_scope.

Lemma X13_changes_need_every_read_witness :
  ∃ txResponse txReceipt afters befores fees,
    @Ok Error _ sample_tx = Ok txResponse
    ∧ wait txResponse = Ok txReceipt
    ∧ @getBalances sample_chain [sender; recipient] (blockNumber txReceipt)
      = Ok afters
    ∧ @getBalances sample_chain [sender; recipient] (blockNumber txReceipt - 1)
      = Ok befores
    ∧ @getTxFees sample_chain [sender; recipient] txResponse None None
      = Ok fees
    ∧ length [-30; 70] = length [sender; recipient].
Proof.
  apply (@X13_changes_need_every_read sample_chain (Ok sample_tx)
           [sender; recipient] None None [-30; 70]).
  reflexivity.
Defined.

Lemma X14_overrides_only_reach_sender_fee_witness :
  @getBalanceChanges sample_chain (Ok sample_tx) [recipient] None zero_override
  = @getBalanceChanges sample_chain (Ok sample_tx) [recipient] None None.
Proof.
  apply (@X14_overrides_only_reach_sender_fee sample_chain sample_tx
           [recipient] None zero_override None).
  right. intros account ->%list_elem_of_singleton. discriminate.
Defined.

Lemma X15_assertion_passes_when_all_equal_witness :
  @changeEtherBalances sample_chain (λ accounts, Ok accounts) pretty pretty
    false (Ok sample_tx) [sender; recipient] [BNbigint (-30); BNnumber 70]
    None = Ok tt
  ↔ ∀ (i : nat) change, [-30; 70] !! i = Some change →
      ∃ expected, [BNbigint (-30); BNnumber 70] !! i = Some expected
                  ∧ @toBigInt sample_chain expected = Ok change.
Proof.
  apply (@X15_assertion_passes_when_all_equal sample_chain
           (λ accounts, Ok accounts) pretty pretty (Ok sample_tx)
           [sender; recipient] [BNbigint (-30); BNnumber 70] None
           [-30; 70] [sender; recipient]); reflexivity.
Defined.

Lemma X16_negated_passes_on_first_difference_witness :
  @changeEtherBalances sample_chain (λ accounts, Ok accounts) pretty pretty
    true (Ok sample_tx) [sender; recipient] [BNbigint (-30); BNnumber 71]
    None = Ok tt.
Proof.
  apply (@X16_negated_passes_on_first_difference sample_chain
           (λ accounts, Ok accounts) pretty pretty (Ok sample_tx)
           [sender; recipient] [BNbigint (-30); BNnumber 71] None
           [-30; 70] [sender; recipient] eq_refl eq_refl).
  exists 1%nat, 70, (BNnumber 71), 71.
  split_and!; [reflexivity|reflexivity|reflexivity|discriminate|].
  intros [|j] c Hj; [|lia]. intros [= <-]. exists (BNbigint (-30)).
  split; reflexivity.
Defined.

Lemma X17_surplus_expected_values_ignored_witness :
  @changeEtherBalances sample_chain (λ accounts, Ok accounts) pretty pretty
    false (Ok sample_tx) [sender; recipient]
    ([BNbigint (-30); BNnumber 70] ++ [BNstring "not a number"]) None
  = @changeEtherBalances sample_chain (λ accounts, Ok accounts) pretty pretty
      false (Ok sample_tx) [sender; recipient]
      [BNbigint (-30); BNnumber 70] None.
Proof.
  apply (@X17_surplus_expected_values_ignored sample_chain
           (λ accounts, Ok accounts) pretty pretty false (Ok sample_tx)
           [sender; recipient] [BNbigint (-30); BNnumber 70]
           [BNstring "not a number"] None).
  simpl. lia.
Defined.

Lemma X18_missing_expected_value_is_an_error_witness :
  ∃ e, @changeEtherBalances sample_chain (λ accounts, Ok accounts) pretty
         pretty false (Ok sample_tx) [sender; recipient] [BNbigint (-31)]
         None = Err (Rejected e).
Proof.
  apply (@X18_missing_expected_value_is_an_error sample_chain
           (λ accounts, Ok accounts) pretty pretty (Ok sample_tx)
           [sender; recipient] [BNbigint (-31)] None).
  simpl. lia.
Defined.

End MatcherSamples.

(** * The registry writer: further proofs *)

Section RegistryExtras.
Import Registry.

(** ** What a call leaves alone *)

Section Keeps.
Context (R : World → World → Prop) `{!Reflexive R, !Transitive R}.

Lemma keeps_ret {A} (a : A) : keeps R (mret a : M A).
Proof. intros w. simpl. done. Qed.

Lemma keeps_throw {A} e : keeps R (throw e : M A).
Proof. intros w. simpl. done. Qed.

Lemma keeps_lift {A} (r : result Error A) : keeps R (lift r).
Proof. intros w. simpl. done. Qed.

Lemma keeps_bind {A B} (m : M A) (f : A → M B) :
  keeps R m → (∀ a, keeps R (f a)) → keeps R (m ≫= f).
Proof.
  intros Hm Hf w. unfold mbind, M_bind. specialize (Hm w).
  destruct (m w) as [[a|e] w1]; simpl in *; [|done].
  etrans; [done|]. apply Hf.
Qed.

Lemma keeps_try_catch_finally {A} (body : M A) handler fin :
  keeps R body → (∀ e, keeps R (handler e)) → keeps R fin →
  keeps R (try_catch_finally body handler fin).
Proof.
  intros Hb Hh Hf w. unfold try_catch_finally. specialize (Hb w).
  destruct (body w) as [[a|e] w1]; simpl in *.
  - specialize (Hf w1). destruct (fin w1) as [[[]|e2] w2]; simpl in *;
      by etrans.
  - specialize (Hh e w1). destruct (handler e w1) as [r2 w2]; simpl in *.
    specialize (Hf w2). destruct (fin w2) as [[[]|e3] w3]; simpl in *;
      (etrans; [done|]); by etrans.
Qed.
End Keeps.

#[local] Instance same_elsewhere_refl p : Reflexive (same_elsewhere p).
Proof. intros w. by split. Qed.

#[local] Instance same_elsewhere_trans p : Transitive (same_elsewhere p).
Proof.
  intros w1 w2 w3 [Hr1 H1] [Hr2 H2]. split; [congruence|].
  intros q Hq. destruct (H2 q Hq) as [-> ->]. by apply H1.
Qed.

Lemma keeps_elsewhere_log p ev w : same_elsewhere p w (log ev w).
Proof. by split. Qed.

Lemma keeps_elsewhere_files p c w :
  same_elsewhere p w (set_files (<[p:=c]> (files w)) w).
Proof.
  split; [done|]. intros q Hq. simpl. by rewrite lookup_insert_ne.
Qed.

Lemma keeps_elsewhere_locks p (f : gmap string Holder → gmap string Holder) w :
  (∀ q, q ≠ p → f (locks w) !! q = locks w !! q) →
  same_elsewhere p w (set_locks (f (locks w)) w).
Proof. intros Hf. split; [done|]. intros q Hq. simpl. auto. Qed.

Lemma write_file_elsewhere ev p c : keeps (same_elsewhere p) (write_file ev p c).
Proof.
  intros w. unfold write_file. simpl.
  destruct (decide (p ∈ readonly w)); simpl; [by split|].
  split; [done|]. intros q Hq. simpl. by rewrite lookup_insert_ne.
Qed.

Lemma getOrCreate_elsewhere p : keeps (same_elsewhere p) (getOrCreateLibraries p).
Proof.
  unfold getOrCreateLibraries.
  apply keeps_bind; [apply _|by intros w|]. intros found.
  apply keeps_bind; [apply _| |].
  - destruct found; simpl; [by apply keeps_ret; apply _|].
    apply write_file_elsewhere.
  - intros _ w. unfold readJSON. simpl. by destruct (files w !! p) as [?|].
Qed.

Lemma lock_elsewhere p n : keeps (same_elsewhere p) (lock p n).
Proof.
  intros w. unfold lock. simpl. destruct (files w !! p); [|by split].
  destruct (locks w !! p) as [[|busy]|]; simpl.
  - by split.
  - destruct (decide (busy ≤ n)%nat); simpl; (split; [done|]);
      intros q Hq; simpl; by rewrite lookup_insert_ne.
  - split; [done|]. intros q Hq; simpl; by rewrite lookup_insert_ne.
Qed.

Lemma unlock_elsewhere p : keeps (same_elsewhere p) (unlock p).
Proof.
  intros w. unfold unlock. simpl. destruct (files w !! p); [|by split].
  destruct (locks w !! p) as [[|busy]|]; simpl; try by split.
  split; [done|]. intros q Hq; simpl; by rewrite lookup_delete_ne.
Qed.

(** X19: a call touches nothing but its own path: the other files, the
    locks of the other paths and the read-only paths are after the call as
    they were before it, however the call ends. *)
Theorem X19_other_paths_untouched (p q : string) (libs : list json) (w : World) :
  q ≠ p →
  let w' := (writeLibrariesToFile p libs w).2 in
  files w' !! q = files w !! q
  ∧ locks w' !! q = locks w !! q
  ∧ readonly w' = readonly w.
Proof.
  intros Hq. simpl.
  assert (keeps (same_elsewhere p) (writeLibrariesToFile p libs)) as Hk.
  { apply keeps_try_catch_finally; [apply _| |intros e; by apply keeps_throw; apply _
                                   |apply unlock_elsewhere].
    unfold writeBody.
    apply keeps_bind; [apply _|apply getOrCreate_elsewhere|]. intros _.
    apply keeps_bind; [apply _|apply lock_elsewhere|]. intros _.
    unfold mergeAndWrite.
    apply keeps_bind; [apply _|apply getOrCreate_elsewhere|]. intros v.
    apply keeps_bind; [apply _|by apply keeps_lift; apply _|]. intros xs.
    apply write_file_elsewhere. }
  destruct (Hk w) as [Hro Hother]. destruct (Hother q Hq) as [Hf Hl].
  by split_and!.
Qed.


Lemma X19_other_paths_untouched_witness :
  files (writeLibrariesToFile "other.json" [lib_B] corrupt_world).2
    !! registry_path
  = Some (RawText "[{").
Proof.
  destruct (X19_other_paths_untouched "other.json" registry_path [lib_B]
              corrupt_world) as (Hf & _ & _); [discriminate|].
  rewrite Hf. reflexivity.
Defined.

(** ** Calls in particular situations *)

(** X20: a call made while this process already holds the lock of the path
    cannot acquire it; it fails with the plugin's error built from the
    lock's refusal, leaves the file as it was, and its closing unlock
    releases the lock that was held before the call. *)
Theorem X20_call_under_own_lock_releases_it p libs v w :
  files w !! p = Some (JsonText v) → locks w !! p = Some Self →
  (writeLibrariesToFile p libs w).1
  = Err (ZkSyncSolcPluginError (SystemError ELOCKED))
  ∧ files (writeLibrariesToFile p libs w).2 = files w
  ∧ locks (writeLibrariesToFile p libs w).2 !! p = None.
Proof.
  intros Hf Hl. rewrite write_unfold, writeBody_unfold.
  rewrite (getOrCreate_present p (JsonText v)) by done. simpl.
  unfold lock. simpl. rewrite Hf, Hl.
  unfold unlock. simpl. rewrite Hf, Hl. simpl.
  by rewrite lookup_delete_eq.
Qed.

Lemma X20_call_under_own_lock_releases_it_witness :
  (writeLibrariesToFile registry_path [lib_B] held_world).1
  = Err (ZkSyncSolcPluginError (SystemError ELOCKED))
  ∧ files (writeLibrariesToFile registry_path [lib_B] held_world).2
    = files held_world
  ∧ locks (writeLibrariesToFile registry_path [lib_B] held_world).2
      !! registry_path = None.
Proof.
  apply (X20_call_under_own_lock_releases_it registry_path [lib_B]
           (JArr [lib_A]) held_world); reflexivity.
Defined.

(** X21: when the registry file exists and parses but cannot be written,
    the call fails with the plugin's error built from the write's refusal,
    the file is as it was, and the lock taken for the attempt is
    released. *)
Theorem X21_unwritable_file_left_intact p libs v w :
  files w !! p = Some (JsonText v) → iterable v = true → p ∈ readonly w →
  free_within 10 (locks w !! p) = true →
  (writeLibrariesToFile p libs w).1
  = Err (ZkSyncSolcPluginError (SystemError EACCES))
  ∧ files (writeLibrariesToFile p libs w).2 = files w
  ∧ locks (writeLibrariesToFile p libs w).2 !! p = None.
Proof.
  intros Hf Hit Hro Hfree.
  assert (∃ xs, spread v = Ok xs) as [xs Hs] by (destruct v; by eauto).
  rewrite write_unfold, writeBody_unfold.
  rewrite (getOrCreate_present p (JsonText v)) by done. simpl.
  rewrite lock_acquired by (simpl; by rewrite ?Hf).
  rewrite (mergeAndWrite_refused _ _ v xs) by done.
  rewrite unlock_held by (simpl; by rewrite ?Hf, ?lookup_insert_eq).
  simpl. by rewrite lookup_delete_eq.
Qed.

Lemma X21_unwritable_file_left_intact_witness :
  (writeLibrariesToFile registry_path [lib_B] readonly_world).1
  = Err (ZkSyncSolcPluginError (SystemError EACCES))
  ∧ files (writeLibrariesToFile registry_path [lib_B] readonly_world).2
    = files readonly_world
  ∧ locks (writeLibrariesToFile registry_path [lib_B] readonly_world).2
      !! registry_path = None.
Proof.
  apply (X21_unwritable_file_left_intact registry_path [lib_B]
           (JArr [lib_A]) readonly_world); reflexivity.
Defined.

(** X22: a registry file that holds a JSON string is not refused: the call
    succeeds and the file then holds an array of the string's characters
    (code points of the UTF-8 text, not bytes), one string each, followed by
    the appended records. *)
Theorem X22_json_string_is_spread p libs s w :
  files w !! p = Some (JsonText (JStr s)) →
  p ∉ readonly w → free_within 10 (locks w !! p) = true →
  (writeLibrariesToFile p libs w).1 = Ok tt
  ∧ files (writeLibrariesToFile p libs w).2 !! p
    = Some (JsonText (JArr ((JStr <$> code_points s) ++ libs))).
Proof.
  intros Hf Hro Hfree.
  rewrite (write_existing p libs (JStr s) _ w Hf eq_refl Hro Hfree). simpl.
  by rewrite lookup_insert_eq.
Qed.

Lemma X22_json_string_is_spread_witness :
  files (writeLibrariesToFile registry_path [lib_B] string_world).2
    !! registry_path
  = Some (JsonText (JArr [JStr "a"; JStr "é"; lib_B])).
Proof.
  apply (X22_json_string_is_spread registry_path [lib_B] "aé" string_world).
  - reflexivity.
  - apply not_elem_of_empty.
  - reflexivity.
Defined.

(** ** Any number of calls *)

Lemma write_step p E R w :
  holds w p E → p ∉ readonly w → free_within 10 (locks w !! p) = true →
  ∃ w1, writeLibrariesToFile p R w = (Ok tt, w1)
        ∧ files w1 !! p = Some (JsonText (JArr (E ++ R)))
        ∧ readonly w1 = readonly w ∧ locks w1 !! p = None.
Proof.
  intros [Hf|[Hf ->]] Hro Hfree.
  - rewrite (write_existing _ _ (JArr E) E) by done.
    eexists. split; [done|]. simpl. by rewrite lookup_insert_eq, lookup_delete_eq.
  - rewrite write_fresh by done.
    eexists. split; [done|]. simpl. by rewrite lookup_insert_eq, lookup_delete_eq.
Qed.

(** X23: calls made one after the other on a writable path whose lock is
    free all succeed, and the file ends with what it held followed by the
    records of every call, in the order of the calls. *)
Theorem X23_calls_accumulate p E batches w :
  holds w p E → p ∉ readonly w → free_within 10 (locks w !! p) = true →
  Forall (λ r, r = Ok tt) (writeAll p batches w).1
  ∧ length (writeAll p batches w).1 = length batches
  ∧ holds (writeAll p batches w).2 p (E ++ concat batches).
Proof.
  revert E w. induction batches as [|R batches IH]; intros E w Hh Hro Hfree.
  - simpl. rewrite app_nil_r. by split_and!.
  - simpl. destruct (write_step p E R w Hh Hro Hfree)
      as (w1 & -> & Hf1 & Hro1 & Hl1).
    destruct (IH (E ++ R) w1) as (Hall & Hlen & Hholds).
    { by left. }
    { by rewrite Hro1. }
    { by rewrite Hl1. }
    destruct (writeAll p batches w1) as [rs w2]. simpl in *.
    split_and!; [by constructor|by rewrite Hlen|].
    by rewrite (assoc_L (++)).
Qed.

Lemma X23_calls_accumulate_witness :
  holds (writeAll registry_path [[lib_A]; []; [lib_B; lib_A]] empty_world).2
    registry_path ([] ++ concat [[lib_A]; []; [lib_B; lib_A]]).
Proof.
  apply (X23_calls_accumulate registry_path [] [[lib_A]; []; [lib_B; lib_A]]
           empty_world).
  - right. split; reflexivity.
  - apply not_elem_of_empty.
  - reflexivity.
Defined.

End RegistryExtras.
